(** * Myriota SDK, [math/myriotamath.h]: circular history buffer, resampler
      geometry, fixed-point clipping and rational approximation.

    A shallow embedding of the header's inline code.

    - Machine integers are values of [Z]; every conversion and every
      unsigned operation has its wrap-around written out ([uint32], [uint64],
      [int16], [int32], [int64]).
    - [std::vector<T>] is a [list T]; [v[i]] is checked against the length and
      answers [None] outside it, where C++ leaves the access undefined.
    - A [double] is taken as the rational number it denotes and the
      arithmetic on doubles as exact arithmetic on [Q]: rounding, infinities
      and NaN are outside the model.  A division by zero and a conversion of
      a double to an integer type that cannot hold it answer [None].
    - [None] therefore always reads "the C++ execution leaves the model here"
      (undefined behaviour or a non-finite double); a thrown exception is a
      defined outcome and is modelled as [Throws]. *)

From Stdlib Require Import ZArith QArith Qfield Qround Qminmax Qabs Lia Lqa.
From stdpp Require Import base option list pretty strings.

#[local] Open Scope Z_scope.

(** ** Machine integers *)

Module MachInt.

(** Conversion to an unsigned type of [w] bits: reduction modulo [2^w]. *)
Definition to_unsigned (w z : Z) : Z := z mod 2 ^ w.

(** Conversion to a signed two's complement type of [w] bits. *)
Definition to_signed (w z : Z) : Z := (z + 2 ^ (w - 1)) mod 2 ^ w - 2 ^ (w - 1).

Definition uint32 : Z -> Z := to_unsigned 32.
Definition uint64 : Z -> Z := to_unsigned 64.
Definition int16 : Z -> Z := to_signed 16.
Definition int32 : Z -> Z := to_signed 32.
Definition int64 : Z -> Z := to_signed 64.

Definition in_signed (w z : Z) : Prop := - 2 ^ (w - 1) <= z < 2 ^ (w - 1).

(** Signed arithmetic whose mathematical result leaves the type is
    undefined in C and C++. *)
Definition checked_signed (w z : Z) : option Z :=
  if (- 2 ^ (w - 1) <=? z) && (z <? 2 ^ (w - 1)) then Some z else None.

End MachInt.
Import MachInt.

(** ** [std::vector] accesses *)

Section Vector.
Context {T : Type}.

(** [v[i]] as an rvalue. *)
Definition vector_get (v : list T) (i : Z) : option T :=
  if (0 <=? i) && (i <? Z.of_nat (length v)) then v !! Z.to_nat i else None.

(** [v[i] = x]. *)
Definition vector_set (v : list T) (i : Z) (x : T) : option (list T) :=
  if (0 <=? i) && (i <? Z.of_nat (length v)) then Some (<[Z.to_nat i := x]> v)
  else None.
End Vector.

(** ** Exceptions *)

Inductive exception : Type :=
| out_of_range (what : string).

Inductive outcome (A : Type) : Type :=
| Returns (a : A)
| Throws (e : exception).
Arguments Returns {A} a.
Arguments Throws {A} e.

(** ** Power-of-two sizing *)

(** Modelled from the spec: [myriota_greater_power_of_two] is only declared
    in the header ("Returns smallest power of 2 greater than or equal to this
    integer"); its body is missing.  The result type is [unsigned int], so
    for an argument above [2^31] no such power exists in the type and the
    value of the model there is not relied upon. *)
Definition myriota_greater_power_of_two (x : Z) : Z :=
  uint32 (2 ^ Z.log2_up x).

Definition is_power_of_two (c : Z) : Prop := exists k, 0 <= k /\ c = 2 ^ k.

(** [c] is the smallest power of two greater than or equal to [s]. *)
Definition smallest_power_of_two_ge (s c : Z) : Prop :=
  is_power_of_two c /\ s <= c /\ forall c', is_power_of_two c' -> s <= c' -> c <= c'.

(** ** Fixed-point clipping *)

(** [static inline int16_t myriota_clip_16(const int32_t x)] *)
Definition myriota_clip_16 (x : Z) : Z :=
  if x >? Z.shiftl 1 15 - 1 then int16 (Z.shiftl 1 15 - 1)
  else if x <? - Z.shiftl 1 15 then int16 (- Z.shiftl 1 15)
  else int16 x.

(** ** [template <typename T> class CircularBuffer] *)

Module CircularBuffer.
Section Def.
Context {T : Type}.

Record t : Type := Build {
  size : Z;        (* const unsigned int size *)
  mask : Z;        (* const unsigned int mask *)
  buf : list T;    (* std::vector<T> buf *)
  N : Z            (* uint64_t N *)
}.

(** [CircularBuffer(unsigned int size, T init)] *)
Definition new (size0 : Z) (init : T) : t :=
  let size := myriota_greater_power_of_two (uint32 (size0 + 1)) in
  {| size := size;
     mask := uint32 (size - 1);
     buf := replicate (Z.to_nat size) init;
     N := 0 |}.

(** [inline void push(const T &elem)] *)
Definition push (elem : T) (b : t) : option t :=
  buf' ← vector_set (buf b) (Z.land (N b) (mask b)) elem;
  Some {| size := size b; mask := mask b; buf := buf'; N := uint64 (N b + 1) |}.

(** [inline uint64_t pushed() const] *)
Definition pushed (b : t) : Z := N b.

(** [inline int64_t maxn() const { return N - 1; }]: the subtraction is
    done in [uint64_t], the result converted to [int64_t]. *)
Definition maxn (b : t) : Z := int64 (uint64 (N b - 1)).

(** [inline int64_t minn() const { return N - size; }] *)
Definition minn (b : t) : Z := int64 (uint64 (N b - size b)).

(** [inline const T &operator()(const int64_t n) const] *)
Definition operator_call (b : t) (n : Z) : option T :=
  vector_get (buf b) (Z.land n (mask b)).

(** The text of the exception thrown by [set]. *)
Definition set_what (n : Z) (b : t) : string :=
  "circluar buffer set " +:+ pretty n +:+ " outside [" +:+ pretty (minn b)
    +:+ ", " +:+ pretty (maxn b) +:+ "]".

(** [void set(const int64_t n, const T &v)] *)
Definition set (n : Z) (v : T) (b : t) : option (outcome unit * t) :=
  if (n >=? minn b) && (n <=? maxn b) then
    buf' ← vector_set (buf b) (Z.land n (mask b)) v;
    Some (Returns tt,
          {| size := size b; mask := mask b; buf := buf'; N := N b |})
  else Some (Throws (out_of_range (set_what n b)), b).

(** A run of pushes, first element of the list first. *)
Fixpoint pushes (vs : list T) (b : t) : option t :=
  match vs with
  | [] => Some b
  | v :: vs' => b' ← push v b; pushes vs' b'
  end.

(** The class invariant: what the constructor establishes and every
    method keeps. *)
Record wf (b : t) : Prop := {
  wf_size : exists k, 0 <= k <= 31 /\ size b = 2 ^ k;
  wf_mask : mask b = size b - 1;
  wf_buf : Z.of_nat (length (buf b)) = size b;
  wf_N : 0 <= N b < 2 ^ 64
}.
(** The states a buffer built with [CircularBuffer(size0, init)] can be in:
    the constructed one, and those its methods lead to. *)
Inductive reachable (size0 : Z) (init : T) : t -> Prop :=
| reach_new : reachable size0 init (new size0 init)
| reach_push b v b' :
    reachable size0 init b -> push v b = Some b' -> reachable size0 init b'
| reach_set b n v o b' :
    reachable size0 init b -> set n v b = Some (o, b') -> reachable size0 init b'.
End Def.
Arguments t : clear implicits.
End CircularBuffer.

(** ** Doubles, as exact rationals *)

Module Double.

(** Conversion of an integer to [double]. *)
Definition of_int (z : Z) : Q := inject_Z z.

(** [x / y]; a zero divisor gives an infinity or a NaN. *)
Definition div (x y : Q) : option Q :=
  if Qeq_bool y 0 then None else Some (x / y)%Q.

Definition fmin (x y : Q) : Q := Qmin x y.
Definition fmax (x y : Q) : Q := Qmax x y.
Definition ceil (x : Q) : Q := inject_Z (Qceiling x).
Definition floor (x : Q) : Q := inject_Z (Qfloor x).

(** The integral part, rounding toward zero. *)
Definition trunc (x : Q) : Z := Z.quot (Qnum x) (Zpos (Qden x)).

(** Conversion to a signed integer type of [w] bits: the fractional part is
    discarded; undefined when the integral part does not fit. *)
Definition to_signed (w : Z) (x : Q) : option Z := checked_signed w (trunc x).

(** Conversion to an unsigned integer type of [w] bits. *)
Definition to_unsigned (w : Z) (x : Q) : option Z :=
  let z := trunc x in
  if (0 <=? z) && (z <? 2 ^ w) then Some z else None.

End Double.

(** ** Rationals *)

(** [typedef struct { long long p; long long q; } myriota_rational;] *)
Record myriota_rational : Type := {
  p : Z;  (* numerator *)
  q : Z   (* denominator *)
}.

(** ** [template <typename T> class Resample] *)

Module Resample.
Section Def.
Context {T : Type}.

(** [myriota_rational_approximation] is only declared in the header: the
    class is modelled over any function of its type. *)
Variable myriota_rational_approximation : Q -> Q -> Z -> Z -> myriota_rational.

Record t : Type := Build {
  W : Q;                   (* const double W *)
  r : myriota_rational;    (* const myriota_rational r *)
  gamma : Q;               (* const double gamma *)
  kappa : Q;               (* const double kappa *)
  delta : Q;               (* const double delta *)
  xi : Z;                  (* const int xi *)
  gmin : Z;                (* const int gmin *)
  gmax : Z;                (* const int gmax *)
  a : CircularBuffer.t T   (* CircularBuffer<T> a *)
}.

(** The size the constructor asks of the history buffer:
    [ceil((2 * W) / kappa + 1)], converted to [unsigned int]. *)
Definition buffer_request (W kappa : Q) : option Z :=
  d ← Double.div (2 * W) kappa;
  Double.to_unsigned 32 (Double.ceil (d + 1)).

(** [Resample(double in_rate, double out_rate, double W, T zero)]; the
    members are initialised in the order of their declaration. *)
Definition new (in_rate out_rate W : Q) (zero : T) : option t :=
  x ← Double.div out_rate in_rate;
  let r := myriota_rational_approximation x (1 # 1000000) 1000 10 in
  gamma ← Double.div (1 * Double.of_int (p r)) (Double.of_int (q r));
  let kappa := Double.fmin 1 gamma in
  let delta := Double.fmax 1 gamma in
  let xi := int32 (if p r >? q r then p r else q r) in
  nxi ← checked_signed 32 (- xi);
  gmin ← Double.to_signed 32 (Double.ceil (Double.of_int nxi * W));
  gmax ← Double.to_signed 32 (Double.floor (Double.of_int xi * W));
  n ← buffer_request W kappa;
  Some {| W := W; r := r; gamma := gamma; kappa := kappa; delta := delta;
          xi := xi; gmin := gmin; gmax := gmax;
          a := CircularBuffer.new n zero |}.

Definition with_a (s : t) (a' : CircularBuffer.t T) : t :=
  {| W := W s; r := r s; gamma := gamma s; kappa := kappa s; delta := delta s;
     xi := xi s; gmin := gmin s; gmax := gmax s; a := a' |}.

(** [void push(T x) { a.push(x); }] *)
Definition push (x : T) (s : t) : option t :=
  a' ← CircularBuffer.push x (a s);
  Some (with_a s a').

(** [int64_t pushed() const { return a.pushed(); }] *)
Definition pushed (s : t) : Z := int64 (CircularBuffer.pushed (a s)).

(** [int64_t minn() const { return ceil(gamma * (a.maxn() - a.size) + delta * W); }]:
    the difference is taken in [int64_t]. *)
Definition minn (s : t) : option Z :=
  d ← checked_signed 64 (CircularBuffer.maxn (a s) - CircularBuffer.size (a s));
  Double.to_signed 64
    (Double.ceil (gamma s * Double.of_int d + delta s * W s)).

(** [int64_t maxn() const { return floor(gamma * (a.maxn() - 1) - delta * W); }] *)
Definition maxn (s : t) : option Z :=
  d ← checked_signed 64 (CircularBuffer.maxn (a s) - 1);
  Double.to_signed 64
    (Double.floor (gamma s * Double.of_int d - delta s * W s)).

(** A run of pushes. *)
Fixpoint pushes (xs : list T) (s : t) : option t :=
  match xs with
  | [] => Some s
  | x :: xs' => s' ← push x s; pushes xs' s'
  end.

End Def.
Arguments t : clear implicits.
End Resample.

(** ** RationalApproximator *)

Module RationalApproximator.

(** Modelled from the spec: [make_myriota_rational] is only declared in the
    header ("construct rational number equivalent to a/b. Numerator and
    denominator of resulting rational will always be relatively prime"); the
    data model adds that a Rational is "always stored in lowest terms with a
    positive denominator (gcd-reduced on construction)". *)
Definition make_myriota_rational (a b : Z) : myriota_rational :=
  let g := Z.gcd a b in
  {| p := Z.sgn b * a / g; q := Z.abs b / g |}.

(** The value [h/k] of a fraction. *)
Definition value (h k : Z) : Q := (inject_Z h / inject_Z k)%Q.

(** Modelled from the spec: the body of [myriota_rational_approximation] is
    missing.  Section 4.1: the fraction is produced "via the continued-fraction
    expansion of x, stopping at the first convergent that satisfies
    |x - p/q| < tolerance, OR whose denominator would exceed maxDenominator,
    OR once convergentIndex convergents have been produced"; and an exactly
    rational x "must terminate at exact convergent, error term 0".

    [expand budget x tol qmax xn h1 k1 h2 k2 n] is the state after [n]
    convergents: [xn] is the current complete quotient, [h1/k1] and [h2/k2]
    the last two convergents, [budget] how many convergents may follow the
    next one.  The three tests are made on each convergent in the order of
    the sentence; "would exceed" is read as a denominator greater than
    [qmax].  It answers the Rational and the number of convergents
    produced. *)
Fixpoint expand (budget : nat) (x tol : Q) (qmax : Z) (xn : Q)
    (h1 k1 h2 k2 : Z) (n : nat) : myriota_rational * nat :=
  let a := Qfloor xn in
  let h := a * h1 + h2 in
  let k := a * k1 + k2 in
  let c := make_myriota_rational h k in
  if Qlt_le_dec (Qabs (x - value h k)) tol then (c, S n)
  else if qmax <? k then (c, S n)
  else match budget with
       | O => (c, S n)
       | S budget' =>
           if Qeq_bool xn (inject_Z a) then (c, S n)
           else expand budget' x tol qmax (/ (xn - inject_Z a)) h k h1 k1 (S n)
       end.

(** [approximate(x, tolerance, maxDenominator, convergentIndex)], with the
    number of convergents it produced. *)
Definition approximate_counted (x tol : Q) (qmax k : Z) : myriota_rational * nat :=
  expand (Nat.pred (Z.to_nat k)) x tol qmax x 1 0 0 1 0%nat.

Definition approximate (x tol : Q) (qmax k : Z) : myriota_rational :=
  fst (approximate_counted x tol qmax k).

(** The invariant of the expansion between two convergents: for the
    complete quotient [xn] and the last two convergents [h1/k1], [h2/k2],
    - [x = (xn*h1 + h2) / (xn*k1 + k2)], cross-multiplied;
    - the two convergents have determinant 1 or -1;
    - either no convergent was produced yet, or the last denominator is
      positive and the complete quotient exceeds 1. *)
Record expansion_state (x xn : Q) (h1 k1 h2 k2 : Z) : Prop := {
  es_value :
    (x * (xn * inject_Z k1 + inject_Z k2) == xn * inject_Z h1 + inject_Z h2)%Q;
  es_det : h1 * k2 - h2 * k1 = 1 \/ h1 * k2 - h2 * k1 = -1;
  es_den : (k1 = 0 /\ k2 = 1) \/ (0 < k1 /\ 0 <= k2 /\ (1 < xn)%Q)
}.

End RationalApproximator.

(** ** The output window as section 4.3 of the specification words it *)

Module PolyphaseResamplerCore.

(** "minOutputIndex = ceil(gamma·(maxBufferIndex - capacity) + delta·W)",
    over the rationals. *)
Definition minOutputIndex (gamma delta W : Q) (maxBufferIndex capacity : Z) : Z :=
  Qceiling (gamma * (inject_Z maxBufferIndex - inject_Z capacity) + delta * W).

(** "maxOutputIndex = floor(gamma·(maxBufferIndex - 1) - delta·W)" *)
Definition maxOutputIndex (gamma delta W : Q) (maxBufferIndex : Z) : Z :=
  Qfloor (gamma * (inject_Z maxBufferIndex - 1) - delta * W).

End PolyphaseResamplerCore.

(** ** Further inline helpers of the header *)

(** [static inline int myriota_is_power_of_two(unsigned int x)] *)
Definition myriota_is_power_of_two (x : Z) : Z :=
  if myriota_greater_power_of_two x =? x then 1 else 0.

(** [a / b + (a % b != 0)] at an unsigned type of [w] bits; the operands are
    values of the type, so [/] and [%] are the division and remainder of
    natural numbers.  A zero divisor is undefined. *)
Definition unsigned_div_ceil (w a b : Z) : option Z :=
  if b =? 0 then None
  else Some (to_unsigned w (a / b + (if negb (a mod b =? 0) then 1 else 0))).

(** [static inline unsigned int myriota_int_div_ceil(unsigned int a, unsigned int b)] *)
Definition myriota_int_div_ceil : Z -> Z -> option Z := unsigned_div_ceil 32.

(** [static inline unsigned long myriota_long_div_ceil(unsigned long a, unsigned long b)],
    with the 64-bit [unsigned long] of LP64 targets. *)
Definition myriota_long_div_ceil : Z -> Z -> option Z := unsigned_div_ceil 64.

(** [template <class T> T mod(const T &x, const T &y)] of namespace
    [myriota], at a signed integer type of [w] bits ([mod] itself is a
    reserved word here).  [x % y] truncates toward zero and is undefined for
    a zero divisor or a quotient the type cannot hold; the sum [t + y] is a
    signed addition. *)
Definition myriota_mod (w x y : Z) : option Z :=
  if y =? 0 then None
  else
    _ ← checked_signed w (Z.quot x y);
    let t := Z.rem x y in
    if t <? 0 then checked_signed w (t + y) else Some t.

(** [static inline double myriota_signum(double x) { return (x > 0) - (x < 0); }]:
    the difference of the two comparisons is an [int], converted to
    [double]. *)
Definition myriota_signum (x : Q) : Q :=
  Double.of_int ((if Qlt_le_dec 0 x then 1 else 0) - (if Qlt_le_dec x 0 then 1 else 0)).

(** [round] of <math.h>: the nearest integer, halfway cases away from
    zero. *)
Definition round (x : Q) : Q :=
  if Qlt_le_dec x 0 then inject_Z (Qceiling (x - (1 # 2)))
  else inject_Z (Qfloor (x + (1 # 2))).

(** [static inline double myriota_fracpart(double x) { return x - round(x); }] *)
Definition myriota_fracpart (x : Q) : Q := (x - round x)%Q.

(** The element of the stream at global index [i]: the [i]-th pushed value,
    and the initial value at the indices before the first push. *)
Definition stream_at {T : Type} (init : T) (vs : list T) (i : Z) : T :=
  if i <? 0 then init else nth (Z.to_nat i) vs init.

(** * Properties *)

(** ** Machine integers *)

Lemma pow2_32 : 2 ^ 32 = 4294967296.
Proof. reflexivity. Qed.

Lemma pow2_64 : 2 ^ 64 = 18446744073709551616.
Proof. reflexivity. Qed.

Lemma pow2_63 : 2 ^ 63 = 9223372036854775808.
Proof. reflexivity. Qed.

Lemma uint32_small z : 0 <= z < 2 ^ 32 -> uint32 z = z.
Proof. intros H. unfold uint32, to_unsigned. now apply Z.mod_small. Qed.

Lemma uint64_small z : 0 <= z < 2 ^ 64 -> uint64 z = z.
Proof. intros H. unfold uint64, to_unsigned. now apply Z.mod_small. Qed.

Lemma uint64_range z : 0 <= uint64 z < 2 ^ 64.
Proof. unfold uint64, to_unsigned. apply Z.mod_pos_bound. reflexivity. Qed.

Lemma int64_range z : - 2 ^ 63 <= int64 z < 2 ^ 63.
Proof.
  unfold int64, to_signed. change (64 - 1) with 63.
  pose proof (Z.mod_pos_bound (z + 2 ^ 63) (2 ^ 64) eq_refl) as H.
  rewrite pow2_64 in *. rewrite pow2_63 in *. lia.
Qed.

(** Converting to [uint64_t] and back to [int64_t] recovers every value of
    the signed range. *)
Lemma int64_uint64 z : - 2 ^ 63 <= z < 2 ^ 63 -> int64 (uint64 z) = z.
Proof.
  intros H. unfold int64, uint64, to_signed, to_unsigned.
  change (64 - 1) with 63. rewrite Zplus_mod_idemp_l.
  rewrite Z.mod_small; [lia|]. rewrite pow2_64. rewrite pow2_63 in *. lia.
Qed.

(** The two conversions do not change the residue modulo a power of two
    that divides [2^64]. *)
Lemma int64_uint64_mod z k :
  0 <= k <= 64 -> int64 (uint64 z) mod 2 ^ k = z mod 2 ^ k.
Proof.
  intros Hk. unfold int64, uint64, to_signed, to_unsigned.
  change (64 - 1) with 63. rewrite Zplus_mod_idemp_l.
  assert (Hd : 2 ^ 64 = 2 ^ k * 2 ^ (64 - k)).
  { rewrite <- Z.pow_add_r by lia. f_equal. lia. }
  assert (Hp : 0 < 2 ^ k) by (apply Z.pow_pos_nonneg; lia).
  assert (Hp' : 0 < 2 ^ (64 - k)) by (apply Z.pow_pos_nonneg; lia).
  pose proof (Z.div_mod (z + 2 ^ 63) (2 ^ 64) ltac:(lia)) as E.
  assert (E' : (z + 2 ^ 63) mod 2 ^ 64 - 2 ^ 63
               = z + (- ((z + 2 ^ 63) / 2 ^ 64) * 2 ^ (64 - k)) * 2 ^ k).
  { rewrite Hd in E at 1. lia. }
  rewrite E'. apply Z.mod_add. lia.
Qed.

Lemma land_mask n k : 0 <= k -> Z.land n (2 ^ k - 1) = n mod 2 ^ k.
Proof.
  intros Hk. rewrite <- Z.land_ones by assumption.
  f_equal. rewrite Z.ones_equiv. lia.
Qed.

(** ** Power-of-two sizing *)

Lemma greater_power_of_two_eq x :
  0 <= x <= 2 ^ 31 ->
  myriota_greater_power_of_two x = 2 ^ Z.log2_up x /\ 0 <= Z.log2_up x <= 31.
Proof.
  intros Hx.
  assert (Hl : 0 <= Z.log2_up x <= 31).
  { split; [apply Z.log2_up_nonneg|].
    destruct (Z.eq_dec x 0) as [->|Hne]; [cbn; lia|].
    apply Z.log2_up_le_pow2; lia. }
  split; [|exact Hl].
  unfold myriota_greater_power_of_two. apply uint32_small.
  split; [apply Z.pow_nonneg; lia|].
  apply Z.pow_lt_mono_r; lia.
Qed.

Lemma greater_power_of_two_smallest x :
  0 < x <= 2 ^ 31 ->
  smallest_power_of_two_ge x (myriota_greater_power_of_two x).
Proof.
  intros Hx. destruct (greater_power_of_two_eq x) as [E Hl]; [lia|].
  rewrite E. repeat split.
  - exists (Z.log2_up x). split; [lia|reflexivity].
  - apply Z.log2_up_le_pow2; lia.
  - intros c' (j & Hj & ->) Hle.
    apply Z.pow_le_mono_r; [lia|]. apply Z.log2_up_le_pow2; lia.
Qed.

Lemma int16_small z : - 2 ^ 15 <= z < 2 ^ 15 -> int16 z = z.
Proof.
  intros H. unfold int16, to_signed. change (16 - 1) with 15.
  rewrite Z.mod_small; [lia|].
  change (2 ^ 16) with 65536. change (2 ^ 15) with 32768 in *. lia.
Qed.

Lemma uint64_mod z k : 0 <= k <= 64 -> uint64 z mod 2 ^ k = z mod 2 ^ k.
Proof.
  intros Hk. unfold uint64, to_unsigned.
  assert (Hd : 2 ^ 64 = 2 ^ k * 2 ^ (64 - k)).
  { rewrite <- Z.pow_add_r by lia. f_equal. lia. }
  assert (Hp : 0 < 2 ^ k) by (apply Z.pow_pos_nonneg; lia).
  pose proof (Z.div_mod z (2 ^ 64) ltac:(lia)) as E.
  assert (E' : z mod 2 ^ 64 = z + (- (z / 2 ^ 64) * 2 ^ (64 - k)) * 2 ^ k).
  { rewrite Hd in E at 1. lia. }
  rewrite E'. apply Z.mod_add. lia.
Qed.

(** ** Vector accesses *)

Section VectorFacts.
Context {T : Type}.
Implicit Types (v : list T) (i : Z) (x : T).

Lemma vector_set_Some v i x :
  0 <= i < Z.of_nat (length v) ->
  vector_set v i x = Some (<[Z.to_nat i := x]> v).
Proof.
  intros [H0 H1]. unfold vector_set.
  apply Z.leb_le in H0. apply Z.ltb_lt in H1. now rewrite H0, H1.
Qed.

Lemma vector_set_inv v i x v' :
  vector_set v i x = Some v' ->
  0 <= i < Z.of_nat (length v) /\ v' = <[Z.to_nat i := x]> v.
Proof.
  unfold vector_set.
  destruct (Z.leb_spec 0 i), (Z.ltb_spec i (Z.of_nat (length v)));
    cbn; intros E; inversion E; subst; auto.
Qed.

Lemma vector_get_Some v i :
  0 <= i < Z.of_nat (length v) -> vector_get v i = v !! Z.to_nat i.
Proof.
  intros [H0 H1]. unfold vector_get.
  apply Z.leb_le in H0. apply Z.ltb_lt in H1. now rewrite H0, H1.
Qed.

Lemma vector_get_set v i x :
  0 <= i < Z.of_nat (length v) ->
  vector_get (<[Z.to_nat i := x]> v) i = Some x.
Proof.
  intros H. rewrite vector_get_Some by (rewrite length_insert; exact H).
  apply list_lookup_insert_eq. lia.
Qed.

Lemma vector_get_is_Some v i :
  0 <= i < Z.of_nat (length v) -> exists x, v !! Z.to_nat i = Some x.
Proof.
  intros H. apply (lookup_lt_is_Some_2 v (Z.to_nat i)). lia.
Qed.

End VectorFacts.

(** ** The class invariant of [CircularBuffer] *)

Section BufferFacts.
Context {T : Type}.
Implicit Types (b : CircularBuffer.t T) (v init : T) (n s : Z).

Lemma CircularBuffer_new_size s init :
  0 <= s < 2 ^ 31 ->
  CircularBuffer.size (CircularBuffer.new s init) = 2 ^ Z.log2_up (s + 1)
  /\ 0 <= Z.log2_up (s + 1) <= 31.
Proof.
  intros Hs. cbn [CircularBuffer.new CircularBuffer.size].
  rewrite uint32_small by (rewrite pow2_32; change (2 ^ 31) with 2147483648 in Hs; lia).
  apply greater_power_of_two_eq. lia.
Qed.

Lemma CircularBuffer_new_wf s init :
  0 <= s < 2 ^ 31 -> CircularBuffer.wf (CircularBuffer.new s init).
Proof.
  intros Hs. destruct (CircularBuffer_new_size s init Hs) as [E Hk].
  assert (Hp : 0 < 2 ^ Z.log2_up (s + 1)) by (apply Z.pow_pos_nonneg; lia).
  assert (Hlt : 2 ^ Z.log2_up (s + 1) < 2 ^ 32) by (apply Z.pow_lt_mono_r; lia).
  split.
  - exists (Z.log2_up (s + 1)). auto.
  - cbn [CircularBuffer.new CircularBuffer.size CircularBuffer.mask] in *.
    rewrite E. apply uint32_small. lia.
  - cbn [CircularBuffer.new CircularBuffer.size CircularBuffer.buf] in *.
    rewrite length_replicate, E. lia.
  - cbn. lia.
Qed.

(** The masked index is the residue of the index modulo the capacity, and
    is a position of the storage. *)
Lemma CircularBuffer_index b n :
  CircularBuffer.wf b ->
  Z.land n (CircularBuffer.mask b) = n mod CircularBuffer.size b
  /\ 0 <= n mod CircularBuffer.size b < Z.of_nat (length (CircularBuffer.buf b)).
Proof.
  intros [(k & Hk & Hsz) Hm Hb _]. rewrite Hm, Hb, Hsz. split.
  - apply land_mask. lia.
  - apply Z.mod_pos_bound. apply Z.pow_pos_nonneg; lia.
Qed.

Lemma CircularBuffer_push_inv v b b' :
  CircularBuffer.push v b = Some b' ->
  b' = {| CircularBuffer.size := CircularBuffer.size b;
          CircularBuffer.mask := CircularBuffer.mask b;
          CircularBuffer.buf :=
            <[Z.to_nat (Z.land (CircularBuffer.N b) (CircularBuffer.mask b)) := v]>
              (CircularBuffer.buf b);
          CircularBuffer.N := uint64 (CircularBuffer.N b + 1) |}.
Proof.
  unfold CircularBuffer.push. intros E.
  destruct (vector_set _ _ _) as [buf'|] eqn:Ev; [|discriminate].
  apply vector_set_inv in Ev as [_ ->]. cbn in E. now inversion E.
Qed.

Lemma CircularBuffer_push_total v b :
  CircularBuffer.wf b -> exists b', CircularBuffer.push v b = Some b'.
Proof.
  intros Hwf. destruct (CircularBuffer_index b (CircularBuffer.N b) Hwf) as [E Hr].
  unfold CircularBuffer.push.
  rewrite vector_set_Some by (rewrite E; exact Hr). cbn. eauto.
Qed.

Lemma CircularBuffer_push_wf v b b' :
  CircularBuffer.wf b -> CircularBuffer.push v b = Some b' -> CircularBuffer.wf b'.
Proof.
  intros [Hs Hm Hb HN] E. apply CircularBuffer_push_inv in E. subst b'.
  split; cbn; auto.
  - now rewrite length_insert.
  - apply uint64_range.
Qed.

Lemma CircularBuffer_set_wf n v b o b' :
  CircularBuffer.wf b -> CircularBuffer.set n v b = Some (o, b') ->
  CircularBuffer.wf b'.
Proof.
  intros Hwf. unfold CircularBuffer.set.
  destruct (_ && _).
  - destruct (vector_set _ _ _) as [buf'|] eqn:Ev; cbn; [|discriminate].
    apply vector_set_inv in Ev as [_ ->]. intros E. inversion E; subst.
    destruct Hwf as [Hs Hm Hb HN]. split; cbn; auto.
    now rewrite length_insert.
  - intros E. inversion E; subst. exact Hwf.
Qed.

Lemma CircularBuffer_reachable_wf s init b :
  0 <= s < 2 ^ 31 -> CircularBuffer.reachable s init b -> CircularBuffer.wf b.
Proof.
  intros Hs. induction 1 as [|b v b' _ IH E|b n v o b' _ IH E].
  - now apply CircularBuffer_new_wf.
  - eapply CircularBuffer_push_wf; eauto.
  - eapply CircularBuffer_set_wf; eauto.
Qed.

End BufferFacts.

(** ** Fixed-point clipping *)

(** C7. For every integer [x] (hence every 32-bit signed one),
    [myriota_clip_16 x] lies in [[-2^15, 2^15 - 1]]; it is [x] itself when
    [x] is in that interval, [32767] when [x] is above it and [-32768] when
    [x] is below it: the clip saturates and never wraps. *)
Theorem myriota_clip_16_saturates (x : Z) :
  (- 2 ^ 15 <= myriota_clip_16 x <= 2 ^ 15 - 1)
  /\ (- 2 ^ 15 <= x <= 2 ^ 15 - 1 -> myriota_clip_16 x = x)
  /\ (2 ^ 15 - 1 < x -> myriota_clip_16 x = 32767)
  /\ (x < - 2 ^ 15 -> myriota_clip_16 x = -32768).
Proof.
  unfold myriota_clip_16.
  change (Z.shiftl 1 15) with 32768. change (2 ^ 15) with 32768.
  change (32768 - 1) with 32767. change (Z.opp 32768) with (-32768).
  rewrite Z.gtb_ltb.
  destruct (Z.ltb_spec 32767 x) as [Hhi|Hhi].
  - change (int16 32767) with 32767. lia.
  - destruct (Z.ltb_spec x (-32768)) as [Hlo|Hlo].
    + change (int16 (-32768)) with (-32768). lia.
    + rewrite int16_small by (change (2 ^ 15) with 32768; lia). lia.
Qed.

(** ** Capacity *)

(** C5, as the claim states it, fails: a buffer requested with size 4 has
    capacity 8, and the smallest power of two that is at least 4 is 4. *)
Lemma capacity_requested_4_counterexample :
  CircularBuffer.size (CircularBuffer.new 4 tt) = 8
  /\ ~ smallest_power_of_two_ge 4 (CircularBuffer.size (CircularBuffer.new 4 tt)).
Proof.
  split; [reflexivity|].
  intros (_ & _ & Hmin).
  specialize (Hmin 4). change (CircularBuffer.size (CircularBuffer.new 4 tt)) with 8 in Hmin.
  assert (H : 8 <= 4); [|lia].
  apply Hmin; [|lia]. exists 2. split; [lia|reflexivity].
Qed.

(** C5, amended. For every requested size [s] with [s + 1 <= 2^31], the
    capacity of the constructed buffer is the smallest power of two greater
    than or equal to [s + 1], that is the smallest one strictly greater than
    [s]. *)
Theorem capacity_smallest_power_above (T : Type) (s : Z) (init : T) :
  0 <= s < 2 ^ 31 ->
  smallest_power_of_two_ge (s + 1) (CircularBuffer.size (CircularBuffer.new s init)).
Proof.
  intros Hs. cbn [CircularBuffer.new CircularBuffer.size].
  rewrite uint32_small by (rewrite pow2_32; change (2 ^ 31) with 2147483648 in Hs; lia).
  apply greater_power_of_two_smallest. lia.
Qed.

Lemma capacity_smallest_power_above_witness :
  smallest_power_of_two_ge (4 + 1) (CircularBuffer.size (CircularBuffer.new 4 tt)).
Proof.
  apply (capacity_smallest_power_above unit 4 tt). split; [lia|reflexivity].
Defined.

(** ** Unchecked read *)

(** C10. In every state of a buffer constructed with a requested size [s],
    [s + 1 <= 2^31], the capacity is a power of two and the mask is the
    capacity minus one; for every integer [n], negative or outside the valid
    window included, the masked index is [n mod capacity], a position of the
    storage, and the read returns the element stored there. *)
Theorem operator_call_total (T : Type) (s : Z) (init : T)
    (b : CircularBuffer.t T) (n : Z) :
  0 <= s < 2 ^ 31 ->
  CircularBuffer.reachable s init b ->
  is_power_of_two (CircularBuffer.size b)
  /\ CircularBuffer.mask b = CircularBuffer.size b - 1
  /\ Z.land n (CircularBuffer.mask b) = n mod CircularBuffer.size b
  /\ 0 <= n mod CircularBuffer.size b < Z.of_nat (length (CircularBuffer.buf b))
  /\ exists x,
       CircularBuffer.operator_call b n = Some x
       /\ CircularBuffer.buf b !! Z.to_nat (n mod CircularBuffer.size b) = Some x.
Proof.
  intros Hs Hr. pose proof (CircularBuffer_reachable_wf s init b Hs Hr) as Hwf.
  destruct (CircularBuffer_index b n Hwf) as [E Hi].
  repeat split; try tauto.
  - destruct Hwf as [(k & Hk & Hsz) _ _ _]. exists k. split; [lia|exact Hsz].
  - apply Hwf.
  - destruct (vector_get_is_Some (CircularBuffer.buf b) _ Hi) as [x Hx].
    exists x. split; [|exact Hx].
    unfold CircularBuffer.operator_call. rewrite E.
    now rewrite vector_get_Some.
Qed.

Lemma operator_call_total_witness :
  exists b, CircularBuffer.push 7 (CircularBuffer.new 3 0) = Some b
  /\ CircularBuffer.size b = 4
  /\ CircularBuffer.operator_call b (-5) = Some 0
  /\ exists x,
       CircularBuffer.operator_call b (-4) = Some x
       /\ CircularBuffer.buf b !! Z.to_nat ((-4) mod CircularBuffer.size b) = Some x.
Proof.
  eexists. split; [reflexivity|]. split; [reflexivity|]. split; [reflexivity|].
  eapply (operator_call_total Z 3 0 _ (-4)); [split; [lia|reflexivity]|].
  eapply CircularBuffer.reach_push; [apply CircularBuffer.reach_new|reflexivity].
Defined.

(** Five pushes into a buffer of capacity 4: index 4 holds the fifth value,
    and index 0, now below the window [[1, 4]], reads the same slot. *)
Example operator_call_aliases_example :
  exists b,
    CircularBuffer.pushes [10; 11; 12; 13; 14] (CircularBuffer.new 3 0) = Some b
    /\ CircularBuffer.minn b = 1 /\ CircularBuffer.maxn b = 4
    /\ CircularBuffer.operator_call b 4 = Some 14
    /\ CircularBuffer.operator_call b 0 = Some 14
    /\ CircularBuffer.operator_call b (-1) = Some 13.
Proof. eexists. repeat split; reflexivity. Qed.

(** ** Checked write *)

(** The exception of a write below the window. *)
Example set_throws_example :
  CircularBuffer.set 0 9 (CircularBuffer.new 3 0)
  = Some (Throws (out_of_range "circluar buffer set 0 outside [-4, -1]"),
          CircularBuffer.new 3 0).
Proof. reflexivity. Qed.

(** C6. In every state of a constructed buffer and for every index [n],
    [set n v] throws [out_of_range] exactly when [n] is outside
    [[minn(), maxn()]]; a throwing call leaves the buffer as it was; and for
    [n] inside the window the call returns, after which reading index [n]
    gives [v]. *)
Theorem set_checked (T : Type) (s : Z) (init : T)
    (b : CircularBuffer.t T) (n : Z) (v : T) :
  0 <= s < 2 ^ 31 ->
  CircularBuffer.reachable s init b ->
  ((exists what b', CircularBuffer.set n v b = Some (Throws (out_of_range what), b'))
     <-> ~ (CircularBuffer.minn b <= n <= CircularBuffer.maxn b))
  /\ (forall e b', CircularBuffer.set n v b = Some (Throws e, b') -> b' = b)
  /\ (CircularBuffer.minn b <= n <= CircularBuffer.maxn b ->
      exists b', CircularBuffer.set n v b = Some (Returns tt, b')
                 /\ CircularBuffer.operator_call b' n = Some v).
Proof.
  intros Hs Hr. pose proof (CircularBuffer_reachable_wf s init b Hs Hr) as Hwf.
  destruct (CircularBuffer_index b n Hwf) as [E Hi].
  unfold CircularBuffer.set. rewrite Z.geb_leb.
  rewrite vector_set_Some by (rewrite E; exact Hi). cbn [mbind option_bind].
  destruct (Z.leb_spec (CircularBuffer.minn b) n) as [Hlo|Hlo];
    destruct (Z.leb_spec n (CircularBuffer.maxn b)) as [Hhi|Hhi]; cbn [andb].
  - split; [|split].
    + split; [intros (w & b' & Hx); discriminate|lia].
    + intros e b' Hx. discriminate.
    + intros _. eexists. split; [reflexivity|].
      unfold CircularBuffer.operator_call. cbn [CircularBuffer.buf CircularBuffer.mask].
      rewrite E. apply vector_get_set. exact Hi.
  - split; [|split]; [split; [lia|eauto]| |lia].
    intros e b' Hx. now inversion Hx.
  - split; [|split]; [split; [lia|eauto]| |lia].
    intros e b' Hx. now inversion Hx.
  - split; [|split]; [split; [lia|eauto]| |lia].
    intros e b' Hx. now inversion Hx.
Qed.

Lemma set_checked_witness :
  let b := CircularBuffer.new 3 0 in
  CircularBuffer.minn b = -4 /\ CircularBuffer.maxn b = -1
  /\ ((exists what b', CircularBuffer.set 0 9 b = Some (Throws (out_of_range what), b'))
        <-> ~ (CircularBuffer.minn b <= 0 <= CircularBuffer.maxn b))
  /\ (forall e b', CircularBuffer.set 0 9 b = Some (Throws e, b') -> b' = b)
  /\ (CircularBuffer.minn b <= 0 <= CircularBuffer.maxn b ->
      exists b', CircularBuffer.set 0 9 b = Some (Returns tt, b')
                 /\ CircularBuffer.operator_call b' 0 = Some 9).
Proof.
  intros b. split; [reflexivity|]. split; [reflexivity|].
  apply (set_checked Z 3 0 b 0 9); [split; [lia|reflexivity]|].
  apply CircularBuffer.reach_new.
Defined.

(** ** Push *)

(** C8. In every state of a constructed buffer, [push v] completes; the
    push count becomes the old count plus one in [uint64_t], which is the
    old count plus one unless the counter stood at [2^64 - 1]; and right
    after the push, reading index [maxn()] gives [v]. *)
Theorem push_appends (T : Type) (s : Z) (init : T)
    (b : CircularBuffer.t T) (v : T) :
  0 <= s < 2 ^ 31 ->
  CircularBuffer.reachable s init b ->
  exists b',
    CircularBuffer.push v b = Some b'
    /\ CircularBuffer.pushed b' = uint64 (CircularBuffer.pushed b + 1)
    /\ (CircularBuffer.pushed b < 2 ^ 64 - 1 ->
        CircularBuffer.pushed b' = CircularBuffer.pushed b + 1)
    /\ CircularBuffer.operator_call b' (CircularBuffer.maxn b') = Some v.
Proof.
  intros Hs Hr. pose proof (CircularBuffer_reachable_wf s init b Hs Hr) as Hwf.
  destruct (CircularBuffer_push_total v b Hwf) as [b' Hp].
  pose proof (CircularBuffer_push_wf v b b' Hwf Hp) as Hwf'.
  exists b'. split; [exact Hp|].
  pose proof (CircularBuffer_push_inv v b b' Hp) as Eb'.
  destruct Hwf as [(k & Hk & Hsz) Hm Hb HN].
  split; [|split].
  - subst b'. reflexivity.
  - intros Hlt. subst b'. unfold CircularBuffer.pushed in *. cbn.
    apply uint64_small. lia.
  - destruct (CircularBuffer_index b' (CircularBuffer.maxn b') Hwf') as [E Hi].
    destruct (CircularBuffer_index b' (CircularBuffer.N b) Hwf') as [E0 _].
    unfold CircularBuffer.operator_call. rewrite E.
    assert (Hres : CircularBuffer.maxn b' mod CircularBuffer.size b'
                   = CircularBuffer.N b mod CircularBuffer.size b).
    { subst b'. unfold CircularBuffer.maxn. cbn. rewrite Hsz.
      rewrite int64_uint64_mod by lia.
      rewrite <- Zminus_mod_idemp_l. rewrite uint64_mod by lia.
      rewrite Zminus_mod_idemp_l. f_equal. lia. }
    rewrite Hres.
    assert (Hbuf : CircularBuffer.buf b'
                   = <[Z.to_nat (CircularBuffer.N b mod CircularBuffer.size b) := v]>
                       (CircularBuffer.buf b)).
    { subst b'. cbn. rewrite Hm, Hsz, land_mask by lia. reflexivity. }
    rewrite Hbuf. apply vector_get_set.
    rewrite Hb, Hsz. apply Z.mod_pos_bound. apply Z.pow_pos_nonneg; lia.
Qed.

Lemma push_appends_witness :
  exists b',
    CircularBuffer.push 7 (CircularBuffer.new 3 0) = Some b'
    /\ CircularBuffer.pushed b' = uint64 (CircularBuffer.pushed (CircularBuffer.new 3 0) + 1)
    /\ (CircularBuffer.pushed (CircularBuffer.new 3 0) < 2 ^ 64 - 1 ->
        CircularBuffer.pushed b' = CircularBuffer.pushed (CircularBuffer.new 3 0) + 1)
    /\ CircularBuffer.operator_call b' (CircularBuffer.maxn b') = Some 7.
Proof.
  apply (push_appends Z 3 0 (CircularBuffer.new 3 0) 7); [split; [lia|reflexivity]|].
  apply CircularBuffer.reach_new.
Defined.

(** ** The valid index window *)

Section WindowFacts.
Context {T : Type}.
Implicit Types (b : CircularBuffer.t T) (vs : list T).

(** A run of pushes completes, keeps the invariant and the capacity, and
    adds its length to the push count as long as the counter does not wrap. *)
Lemma CircularBuffer_pushes_count vs : forall b,
  CircularBuffer.wf b ->
  CircularBuffer.N b + Z.of_nat (length vs) < 2 ^ 64 ->
  exists b', CircularBuffer.pushes vs b = Some b'
             /\ CircularBuffer.wf b'
             /\ CircularBuffer.size b' = CircularBuffer.size b
             /\ CircularBuffer.N b' = CircularBuffer.N b + Z.of_nat (length vs).
Proof.
  induction vs as [|v vs IH]; intros b Hwf Hlt.
  - exists b. cbn. split; [reflexivity|]. split; [exact Hwf|]. split; lia.
  - destruct (CircularBuffer_push_total v b Hwf) as [b1 Hp].
    pose proof (CircularBuffer_push_wf v b b1 Hwf Hp) as Hwf1.
    pose proof (CircularBuffer_push_inv v b b1 Hp) as E1.
    assert (HN1 : CircularBuffer.N b1 = CircularBuffer.N b + 1).
    { subst b1. cbn. apply uint64_small. destruct Hwf as [_ _ _ HN].
      cbn [length] in Hlt. lia. }
    assert (Hs1 : CircularBuffer.size b1 = CircularBuffer.size b)
      by (subst b1; reflexivity).
    destruct (IH b1 Hwf1) as (b' & Hps & Hwf' & Hs' & HN').
    { rewrite HN1. cbn [length] in Hlt. lia. }
    exists b'. cbn [CircularBuffer.pushes]. rewrite Hp. cbn [mbind option_bind].
    split; [exact Hps|]. split; [exact Hwf'|]. split; [congruence|].
    rewrite HN', HN1. cbn [length]. lia.
Qed.

(** With fewer than [2^63] pushes so far the two bounds are the plain
    integers [N - 1] and [N - size]. *)
Lemma CircularBuffer_window b :
  CircularBuffer.wf b -> CircularBuffer.N b < 2 ^ 63 ->
  CircularBuffer.maxn b = CircularBuffer.N b - 1
  /\ CircularBuffer.minn b = CircularBuffer.N b - CircularBuffer.size b.
Proof.
  intros [(k & Hk & Hsz) _ _ HN] Hlt.
  assert (Hsize : 0 < CircularBuffer.size b <= 2 ^ 31).
  { rewrite Hsz. split; [apply Z.pow_pos_nonneg; lia|].
    apply Z.pow_le_mono_r; lia. }
  change (2 ^ 31) with 2147483648 in Hsize.
  unfold CircularBuffer.maxn, CircularBuffer.minn.
  split; apply int64_uint64; rewrite pow2_63 in *; lia.
Qed.

End WindowFacts.

(** C2, as the claim states it, fails: a buffer requested with size 3 has
    capacity 4, and before any push its window is [[-4, -1]]: it is not
    empty, its length is 4 and not the push count 0 (which is below the
    capacity), and a checked write at index -1 is accepted. *)
Lemma window_before_any_push_counterexample :
  let b := CircularBuffer.new 3 0 in
  CircularBuffer.pushed b = 0
  /\ CircularBuffer.size b = 4
  /\ CircularBuffer.minn b = -4
  /\ CircularBuffer.maxn b = -1
  /\ CircularBuffer.minn b <= CircularBuffer.maxn b
  /\ ~ (CircularBuffer.pushed b < CircularBuffer.size b ->
        CircularBuffer.maxn b - CircularBuffer.minn b + 1 = CircularBuffer.pushed b)
  /\ exists b', CircularBuffer.set (-1) 9 b = Some (Returns tt, b').
Proof.
  cbv zeta. repeat split; try reflexivity; try discriminate.
  - intros H. specialize (H eq_refl). discriminate H.
  - eexists. reflexivity.
Qed.

(** C2, amended. For every requested size [s] with [s + 1 <= 2^31] and
    every run of [N < 2^63] pushes on the constructed buffer, the pushes
    complete and leave [pushed() = N], [minn() = N - capacity],
    [maxn() = N - 1], and [maxn() - minn() + 1 = capacity], whether or not
    [N] has reached the capacity; the window is never empty. *)
Theorem window_after_pushes (T : Type) (s : Z) (init : T) (vs : list T) :
  0 <= s < 2 ^ 31 ->
  Z.of_nat (length vs) < 2 ^ 63 ->
  exists b,
    CircularBuffer.pushes vs (CircularBuffer.new s init) = Some b
    /\ CircularBuffer.size b = CircularBuffer.size (CircularBuffer.new s init)
    /\ CircularBuffer.pushed b = Z.of_nat (length vs)
    /\ CircularBuffer.minn b = Z.of_nat (length vs) - CircularBuffer.size b
    /\ CircularBuffer.maxn b = Z.of_nat (length vs) - 1
    /\ CircularBuffer.maxn b - CircularBuffer.minn b + 1 = CircularBuffer.size b
    /\ CircularBuffer.minn b <= CircularBuffer.maxn b.
Proof.
  intros Hs HN.
  pose proof (CircularBuffer_new_wf s init Hs) as Hwf.
  destruct (CircularBuffer_pushes_count vs (CircularBuffer.new s init) Hwf)
    as (b & Hp & Hwf' & Hsz & HNb).
  { cbn [CircularBuffer.new CircularBuffer.N]. rewrite pow2_64. rewrite pow2_63 in HN. lia. }
  cbn [CircularBuffer.new CircularBuffer.N] in HNb.
  destruct (CircularBuffer_window b Hwf') as [Hmax Hmin]; [lia|].
  assert (Hpos : 0 < CircularBuffer.size b).
  { destruct Hwf' as [(k & Hk & ->) _ _ _]. apply Z.pow_pos_nonneg; lia. }
  exists b. unfold CircularBuffer.pushed. rewrite Hmax, Hmin, HNb.
  repeat split; auto; lia.
Qed.

Lemma window_after_pushes_witness :
  exists b,
    CircularBuffer.pushes [5; 6] (CircularBuffer.new 3 0) = Some b
    /\ CircularBuffer.size b = CircularBuffer.size (CircularBuffer.new 3 0)
    /\ CircularBuffer.pushed b = 2
    /\ CircularBuffer.minn b = 2 - CircularBuffer.size b
    /\ CircularBuffer.maxn b = 2 - 1
    /\ CircularBuffer.maxn b - CircularBuffer.minn b + 1 = CircularBuffer.size b
    /\ CircularBuffer.minn b <= CircularBuffer.maxn b.
Proof.
  apply (window_after_pushes Z 3 0 [5; 6]); [split; [lia|reflexivity]|reflexivity].
Defined.

(** ** Doubles *)

Lemma checked_signed_Some w z z' :
  checked_signed w z = Some z' <-> z' = z /\ in_signed w z.
Proof.
  unfold checked_signed, in_signed.
  destruct (Z.leb_spec (- 2 ^ (w - 1)) z), (Z.ltb_spec z (2 ^ (w - 1))); cbn;
    split; try (intros E; inversion E; subst; auto; fail);
    try (intros [-> ?]; auto; lia).
Qed.

Lemma trunc_inject_Z z : Double.trunc (inject_Z z) = z.
Proof. unfold Double.trunc. cbn. apply Z.quot_1_r. Qed.

Lemma to_signed_ceil w x z :
  Double.to_signed w (Double.ceil x) = Some z <-> z = Qceiling x /\ in_signed w (Qceiling x).
Proof.
  unfold Double.to_signed, Double.ceil. rewrite trunc_inject_Z.
  apply checked_signed_Some.
Qed.

Lemma to_signed_floor w x z :
  Double.to_signed w (Double.floor x) = Some z <-> z = Qfloor x /\ in_signed w (Qfloor x).
Proof.
  unfold Double.to_signed, Double.floor. rewrite trunc_inject_Z.
  apply checked_signed_Some.
Qed.

Lemma to_unsigned_ceil w x z :
  Double.to_unsigned w (Double.ceil x) = Some z
  <-> z = Qceiling x /\ 0 <= Qceiling x < 2 ^ w.
Proof.
  unfold Double.to_unsigned, Double.ceil. rewrite trunc_inject_Z.
  destruct (Z.leb_spec 0 (Qceiling x)), (Z.ltb_spec (Qceiling x) (2 ^ w)); cbn;
    split; try (intros E; inversion E; subst; auto; fail);
    try (intros [-> ?]; auto; lia).
Qed.

Lemma div_Some x y d : Double.div x y = Some d <-> d = (x / y)%Q /\ ~ (y == 0)%Q.
Proof.
  unfold Double.div. destruct (Qeq_bool y 0) eqn:E.
  - apply Qeq_bool_eq in E. split; [discriminate|tauto].
  - apply Qeq_bool_neq in E. split; [intros H; inversion H; auto|].
    intros [-> _]. reflexivity.
Qed.

(** The floor is the one integer [z] with [z <= x < z + 1]. *)
Lemma Qfloor_unique (x : Q) (z : Z) :
  (inject_Z z <= x)%Q -> (x < inject_Z (z + 1))%Q -> Qfloor x = z.
Proof.
  intros Hle Hlt.
  assert (H1 : z <= Qfloor x).
  { rewrite <- (Qfloor_Z z). now apply Qfloor_resp_le. }
  assert (H2 : Qfloor x < z + 1).
  { rewrite Zlt_Qlt. eapply Qle_lt_trans; [apply Qfloor_le|exact Hlt]. }
  lia.
Qed.

Lemma Qfloor_plus_Z (x : Q) (k : Z) : Qfloor (x + inject_Z k) = Qfloor x + k.
Proof.
  apply Qfloor_unique.
  - rewrite inject_Z_plus. apply Qplus_le_compat; [apply Qfloor_le|apply Qle_refl].
  - replace (Qfloor x + k + 1) with ((Qfloor x + 1) + k) by lia.
    rewrite inject_Z_plus. apply Qplus_lt_le_compat; [apply Qlt_floor|apply Qle_refl].
Qed.

Lemma Qceiling_plus_1 (x : Q) : Qceiling (x + 1) = Qceiling x + 1.
Proof.
  unfold Qceiling.
  assert (E : (- (x + 1) == - x + inject_Z (-1))%Q) by (cbn; ring).
  rewrite E, Qfloor_plus_Z. lia.
Qed.

(** ** The output window of [Resample] *)

Section ResampleFacts.
Context {T : Type}.
Implicit Types (s : Resample.t T) (x : T).

Lemma Resample_minn_Some s m :
  Resample.minn s = Some m <->
  m = Qceiling (Resample.gamma s
                * inject_Z (CircularBuffer.maxn (Resample.a s)
                            - CircularBuffer.size (Resample.a s))
                + Resample.delta s * Resample.W s)
  /\ in_signed 64 (CircularBuffer.maxn (Resample.a s)
                   - CircularBuffer.size (Resample.a s))
  /\ in_signed 64 m.
Proof.
  unfold Resample.minn, Double.of_int.
  destruct (checked_signed 64 _) as [d|] eqn:Ed; cbn [mbind option_bind].
  - apply checked_signed_Some in Ed as [-> Hd].
    rewrite to_signed_ceil. split.
    + intros [-> H]. auto.
    + intros (-> & _ & H). auto.
  - split; [discriminate|]. intros (_ & Hd & _).
    assert (E : checked_signed 64
                  (CircularBuffer.maxn (Resample.a s)
                   - CircularBuffer.size (Resample.a s))
                = Some (CircularBuffer.maxn (Resample.a s)
                        - CircularBuffer.size (Resample.a s)))
      by (apply checked_signed_Some; auto).
    congruence.
Qed.

Lemma Resample_maxn_Some s m :
  Resample.maxn s = Some m <->
  m = Qfloor (Resample.gamma s
              * inject_Z (CircularBuffer.maxn (Resample.a s) - 1)
              - Resample.delta s * Resample.W s)
  /\ in_signed 64 (CircularBuffer.maxn (Resample.a s) - 1)
  /\ in_signed 64 m.
Proof.
  unfold Resample.maxn, Double.of_int.
  destruct (checked_signed 64 _) as [d|] eqn:Ed; cbn [mbind option_bind].
  - apply checked_signed_Some in Ed as [-> Hd].
    rewrite to_signed_floor. split.
    + intros [-> H]. auto.
    + intros (-> & _ & H). auto.
  - split; [discriminate|]. intros (_ & Hd & _).
    assert (E : checked_signed 64 (CircularBuffer.maxn (Resample.a s) - 1)
                = Some (CircularBuffer.maxn (Resample.a s) - 1))
      by (apply checked_signed_Some; auto).
    congruence.
Qed.

End ResampleFacts.


(** The window of a resampler with ratio 441/320 and [W = 30] after three
    pushes, computed by the code and by the formulas. *)
Example output_window_formula_example :
  let b := {| CircularBuffer.size := 64; CircularBuffer.mask := 63;
              CircularBuffer.buf := replicate 64 0; CircularBuffer.N := 3 |} in
  let s := {| Resample.W := 30; Resample.r := {| p := 441; q := 320 |};
              Resample.gamma := 441 # 320; Resample.kappa := 1;
              Resample.delta := 441 # 320; Resample.xi := 441;
              Resample.gmin := -13230; Resample.gmax := 13230; Resample.a := b |} in
  Resample.minn s = Some (-44) /\ Resample.maxn s = Some (-40)
  /\ PolyphaseResamplerCore.minOutputIndex (441 # 320) (441 # 320) 30 2 64 = -44
  /\ PolyphaseResamplerCore.maxOutputIndex (441 # 320) (441 # 320) 30 2 = -40.
Proof. vm_compute. auto. Qed.

Section ResamplePushFacts.
Context {T : Type}.
Implicit Types (s : Resample.t T) (x : T) (xs : list T).

Lemma Resample_push_inv x s s' :
  Resample.push x s = Some s' ->
  exists a', CircularBuffer.push x (Resample.a s) = Some a'
             /\ s' = Resample.with_a s a'.
Proof.
  unfold Resample.push. destruct (CircularBuffer.push x (Resample.a s)) as [a'|];
    cbn; [|discriminate].
  intros E. inversion E. eauto.
Qed.

(** A push changes the history buffer only: the geometry stays, the
    capacity stays, the counter moves by one in [uint64_t]. *)
Lemma Resample_push_fields x s s' :
  Resample.push x s = Some s' ->
  Resample.gamma s' = Resample.gamma s
  /\ Resample.delta s' = Resample.delta s
  /\ Resample.W s' = Resample.W s
  /\ CircularBuffer.size (Resample.a s') = CircularBuffer.size (Resample.a s)
  /\ CircularBuffer.N (Resample.a s') = uint64 (CircularBuffer.N (Resample.a s) + 1).
Proof.
  intros H. apply Resample_push_inv in H as (a' & Hp & ->).
  apply CircularBuffer_push_inv in Hp. subst a'. cbn. auto.
Qed.

Lemma Resample_pushes_fields xs : forall s s',
  Resample.pushes xs s = Some s' ->
  0 <= CircularBuffer.N (Resample.a s) ->
  CircularBuffer.N (Resample.a s) + Z.of_nat (length xs) < 2 ^ 64 ->
  Resample.gamma s' = Resample.gamma s
  /\ Resample.delta s' = Resample.delta s
  /\ Resample.W s' = Resample.W s
  /\ CircularBuffer.size (Resample.a s') = CircularBuffer.size (Resample.a s)
  /\ CircularBuffer.N (Resample.a s')
     = CircularBuffer.N (Resample.a s) + Z.of_nat (length xs).
Proof.
  induction xs as [|x xs IH]; intros s s' H H0 Hlt.
  - cbn in H. inversion H; subst. cbn. repeat split; lia.
  - cbn [Resample.pushes] in H.
    destruct (Resample.push x s) as [s1|] eqn:Hp; cbn in H; [|discriminate].
    destruct (Resample_push_fields x s s1 Hp) as (Eg & Ed & EW & Es & EN).
    cbn [length] in Hlt.
    rewrite uint64_small in EN by lia.
    destruct (IH s1 s' H) as (Eg' & Ed' & EW' & Es' & EN'); [lia|lia|].
    repeat split; try congruence. rewrite EN', EN. cbn [length]. lia.
Qed.

(** The bounds of the history buffer move up by one with a push, as long as
    the counter stays below [2^63 - 1]. *)
Lemma CircularBuffer_maxn_small (b : CircularBuffer.t T) :
  0 <= CircularBuffer.N b < 2 ^ 63 ->
  CircularBuffer.maxn b = CircularBuffer.N b - 1.
Proof.
  intros H. unfold CircularBuffer.maxn. apply int64_uint64.
  rewrite pow2_63 in *. lia.
Qed.

Lemma Resample_minn_mono s s' x m m' :
  (0 <= Resample.gamma s)%Q ->
  0 <= CircularBuffer.N (Resample.a s) < 2 ^ 63 - 1 ->
  Resample.push x s = Some s' ->
  Resample.minn s = Some m -> Resample.minn s' = Some m' -> m <= m'.
Proof.
  intros Hg HN Hp Hm Hm'.
  destruct (Resample_push_fields x s s' Hp) as (Eg & Ed & EW & Es & EN).
  rewrite uint64_small in EN by (rewrite pow2_64; rewrite pow2_63 in HN; lia).
  apply Resample_minn_Some in Hm as (-> & _ & _).
  apply Resample_minn_Some in Hm' as (-> & _ & _).
  rewrite Eg, Ed, EW, Es.
  rewrite !CircularBuffer_maxn_small by lia. rewrite EN.
  apply Qceiling_resp_le. apply Qplus_le_compat; [|apply Qle_refl].
  rewrite !(Qmult_comm (Resample.gamma s)).
  apply Qmult_le_compat_r; [|exact Hg].
  rewrite <- Zle_Qle. lia.
Qed.

Lemma Resample_maxn_mono s s' x m m' :
  (0 <= Resample.gamma s)%Q ->
  0 <= CircularBuffer.N (Resample.a s) < 2 ^ 63 - 1 ->
  Resample.push x s = Some s' ->
  Resample.maxn s = Some m -> Resample.maxn s' = Some m' -> m <= m'.
Proof.
  intros Hg HN Hp Hm Hm'.
  destruct (Resample_push_fields x s s' Hp) as (Eg & Ed & EW & Es & EN).
  rewrite uint64_small in EN by (rewrite pow2_64; rewrite pow2_63 in HN; lia).
  apply Resample_maxn_Some in Hm as (-> & _ & _).
  apply Resample_maxn_Some in Hm' as (-> & _ & _).
  rewrite Eg, Ed, EW.
  rewrite !CircularBuffer_maxn_small by lia. rewrite EN.
  apply Qfloor_resp_le. apply Qplus_le_compat; [|apply Qle_refl].
  rewrite !(Qmult_comm (Resample.gamma s)).
  apply Qmult_le_compat_r; [|exact Hg].
  rewrite <- Zle_Qle. lia.
Qed.

End ResamplePushFacts.

(** ** The geometry set by the constructor of [Resample] *)

Lemma int32_small z : in_signed 32 z -> int32 z = z.
Proof.
  unfold in_signed, int32, to_signed. change (32 - 1) with 31. intros H.
  rewrite Z.mod_small; [lia|].
  rewrite pow2_32. change (2 ^ 31) with 2147483648 in *. lia.
Qed.

Section ResampleNewFacts.
Context {T : Type}.
Variable approximation : Q -> Q -> Z -> Z -> myriota_rational.
Implicit Types (s : Resample.t T) (zero : T).

(** What a completed construction has computed, member by member. *)
Lemma Resample_new_inv in_rate out_rate W zero s :
  Resample.new approximation in_rate out_rate W zero = Some s ->
  exists x n,
    Double.div out_rate in_rate = Some x
    /\ Resample.r s = approximation x (1 # 1000000)%Q 1000 10
    /\ Double.div (1 * inject_Z (p (Resample.r s))) (inject_Z (q (Resample.r s)))
       = Some (Resample.gamma s)
    /\ Resample.kappa s = Qmin 1 (Resample.gamma s)
    /\ Resample.delta s = Qmax 1 (Resample.gamma s)
    /\ Resample.xi s
       = int32 (if p (Resample.r s) >? q (Resample.r s)
                then p (Resample.r s) else q (Resample.r s))
    /\ in_signed 32 (- Resample.xi s)
    /\ Double.to_signed 32 (Double.ceil (inject_Z (- Resample.xi s) * W))
       = Some (Resample.gmin s)
    /\ Double.to_signed 32 (Double.floor (inject_Z (Resample.xi s) * W))
       = Some (Resample.gmax s)
    /\ Resample.buffer_request W (Resample.kappa s) = Some n
    /\ Resample.a s = CircularBuffer.new n zero
    /\ Resample.W s = W.
Proof.
  unfold Resample.new, Double.of_int, Double.fmin, Double.fmax.
  destruct (Double.div out_rate in_rate) as [x|] eqn:Ex; cbn [mbind option_bind];
    [|discriminate].
  set (r0 := approximation x (1 # 1000000)%Q 1000 10).
  destruct (Double.div (1 * inject_Z (p r0)) (inject_Z (q r0))) as [g|] eqn:Eg;
    cbn [mbind option_bind]; [|discriminate].
  set (xi0 := int32 (if p r0 >? q r0 then p r0 else q r0)).
  destruct (checked_signed 32 (- xi0)) as [nxi|] eqn:En;
    cbn [mbind option_bind]; [|discriminate].
  apply checked_signed_Some in En as [-> Hn].
  destruct (Double.to_signed 32 (Double.ceil (inject_Z (- xi0) * W))) as [g0|] eqn:E0;
    cbn [mbind option_bind]; [|discriminate].
  destruct (Double.to_signed 32 (Double.floor (inject_Z xi0 * W))) as [g1|] eqn:E1;
    cbn [mbind option_bind]; [|discriminate].
  destruct (Resample.buffer_request W (Qmin 1 g)) as [n|] eqn:Eb;
    cbn [mbind option_bind]; [|discriminate].
  intros E. inversion E; subst s; cbn.
  exists x, n. repeat split; auto; apply Hn.
Qed.

Lemma buffer_request_Some (W kappa : Q) (n : Z) :
  Resample.buffer_request W kappa = Some n ->
  n = Qceiling (2 * W / kappa) + 1 /\ 0 <= n < 2 ^ 32 /\ ~ (kappa == 0)%Q.
Proof.
  unfold Resample.buffer_request.
  destruct (Double.div (2 * W) kappa) as [d|] eqn:Ed; cbn [mbind option_bind];
    [|discriminate].
  apply div_Some in Ed as [-> Hk].
  rewrite to_unsigned_ceil. rewrite Qceiling_plus_1. intros [-> H]. auto.
Qed.

End ResampleNewFacts.



(** ** Monotonicity of the output window *)



(** ** Rational approximation *)

Section ApproximatorFacts.
Import RationalApproximator.

Lemma gcd_of_determinant (h k h1 k1 : Z) :
  h * k1 - h1 * k = 1 \/ h * k1 - h1 * k = -1 -> Z.gcd h k = 1.
Proof.
  intros Hdet.
  assert (Hd : (Z.gcd h k | h * k1 - h1 * k)).
  { apply Z.divide_sub_r.
    - apply Z.divide_mul_l, Z.gcd_divide_l.
    - apply Z.divide_mul_r, Z.gcd_divide_r. }
  apply Z.divide_1_r_nonneg; [apply Z.gcd_nonneg|].
  destruct Hdet as [E|E]; rewrite E in Hd; [exact Hd|].
  now apply Z.divide_opp_r in Hd.
Qed.

(** On a fraction in lowest terms with a positive denominator the
    constructor changes nothing. *)
Lemma make_myriota_rational_reduced (h k : Z) :
  Z.gcd h k = 1 -> 0 < k -> make_myriota_rational h k = {| p := h; q := k |}.
Proof.
  intros Hg Hk. unfold make_myriota_rational. rewrite Hg.
  rewrite Z.sgn_pos, Z.abs_eq, !Z.div_1_r by lia. f_equal. lia.
Qed.

(** The constructor always answers a fraction in lowest terms, with a
    positive denominator when the given one is not zero. *)
Lemma make_myriota_rational_lowest (a b : Z) :
  b <> 0 ->
  Z.gcd (p (make_myriota_rational a b)) (q (make_myriota_rational a b)) = 1
  /\ 0 < q (make_myriota_rational a b).
Proof.
  intros Hb. unfold make_myriota_rational. cbn [p q].
  set (g := Z.gcd a b).
  assert (Hg : 0 < g).
  { pose proof (Z.gcd_nonneg a b). fold g in H.
    assert (g <> 0) by (unfold g; intros E; apply Z.gcd_eq_0_r in E; lia). lia. }
  assert (Hga : (g | Z.sgn b * a)) by (apply Z.divide_mul_r, Z.gcd_divide_l).
  assert (Hgb : (g | Z.abs b)) by (apply Z.divide_abs_r, Z.gcd_divide_r).
  split.
  - apply Z.gcd_div_gcd; [lia|].
    unfold g. rewrite Z.gcd_abs_r.
    destruct (Z.sgn_spec b) as [[? ->]|[[? ->]|[? ->]]]; try lia.
    + f_equal. lia.
    + replace (-1 * a) with (- a) by lia. now rewrite Z.gcd_opp_l.
  - destruct Hgb as [c Hc]. rewrite Hc, Z.div_mul by lia. nia.
Qed.

Variables (x xn : Q) (h1 k1 h2 k2 : Z).
Hypothesis Inv : expansion_state x xn h1 k1 h2 k2.

Let a := Qfloor xn.
Let h := a * h1 + h2.
Let k := a * k1 + k2.

Lemma expansion_den_pos : 0 < k.
Proof.
  destruct (es_den _ _ _ _ _ _ Inv) as [[-> ->]|(H1 & H2 & Hx)]; unfold k; [lia|].
  assert (1 <= a).
  { unfold a. rewrite <- (Qfloor_Z 1). apply Qfloor_resp_le. now apply Qlt_le_weak. }
  nia.
Qed.

Lemma expansion_det : h * k1 - h1 * k = 1 \/ h * k1 - h1 * k = -1.
Proof.
  destruct (es_det _ _ _ _ _ _ Inv) as [E|E]; unfold h, k; [right|left]; lia.
Qed.

Lemma expansion_gcd : Z.gcd h k = 1.
Proof. apply (gcd_of_determinant h k h1 k1), expansion_det. Qed.

(** In terms of the next convergent [h/k] and the fractional part
    [xn - a] of the complete quotient. *)
Lemma expansion_value_next :
  (x * ((xn - inject_Z a) * inject_Z k1 + inject_Z k)
   == (xn - inject_Z a) * inject_Z h1 + inject_Z h)%Q.
Proof.
  pose proof (es_value _ _ _ _ _ _ Inv) as E. unfold h, k.
  rewrite !inject_Z_plus, !inject_Z_mult.
  transitivity (x * (xn * inject_Z k1 + inject_Z k2))%Q; [ring|].
  rewrite E. ring.
Qed.

(** When the complete quotient is an integer the convergent is [x]. *)
Lemma expansion_exact :
  (xn == inject_Z a)%Q -> (x - value h k == 0)%Q.
Proof.
  intros Hex. pose proof expansion_value_next as E. pose proof expansion_den_pos as Hk.
  assert (Hk' : ~ (inject_Z k == 0)%Q).
  { change 0%Q with (inject_Z 0). rewrite inject_Z_injective. lia. }
  assert (E' : (x * inject_Z k == inject_Z h)%Q).
  { rewrite Hex in E.
    transitivity (x * ((inject_Z a - inject_Z a) * inject_Z k1 + inject_Z k))%Q; [ring|].
    rewrite E. ring. }
  unfold value. rewrite <- E'. field. exact Hk'.
Qed.

Lemma expansion_step :
  ~ (xn == inject_Z a)%Q ->
  expansion_state x (/ (xn - inject_Z a)) h k h1 k1.
Proof.
  intros Hne.
  assert (Ht0 : (0 < xn - inject_Z a)%Q).
  { pose proof (Qfloor_le xn) as Hle. fold a in Hle.
    apply Qle_lteq in Hle as [Hlt|Heq]; [|symmetry in Heq; contradiction].
    apply -> Qlt_minus_iff in Hlt. exact Hlt. }
  assert (Ht1 : (xn - inject_Z a < 1)%Q).
  { pose proof (Qlt_floor xn) as Hlt. fold a in Hlt.
    rewrite inject_Z_plus in Hlt. change (inject_Z 1) with 1%Q in Hlt. lra. }
  assert (Htne : ~ (xn - inject_Z a == 0)%Q).
  { intros E. rewrite E in Ht0. now apply Qlt_irrefl in Ht0. }
  split.
  - pose proof expansion_value_next as E.
    transitivity (/ (xn - inject_Z a)
                  * (x * ((xn - inject_Z a) * inject_Z k1 + inject_Z k)))%Q;
      [field; exact Htne|].
    rewrite E. field. exact Htne.
  - apply expansion_det.
  - right. split; [apply expansion_den_pos|]. split.
    + destruct (es_den _ _ _ _ _ _ Inv) as [[-> _]|(H1 & _ & _)]; lia.
    + change 1%Q with (/ 1)%Q. apply -> Qinv_lt_contravar; auto. reflexivity.
Qed.

End ApproximatorFacts.

Lemma expansion_start (x : Q) : RationalApproximator.expansion_state x x 1 0 0 1.
Proof.
  split.
  - change (inject_Z 0) with 0%Q. change (inject_Z 1) with 1%Q. ring.
  - left. reflexivity.
  - left. split; reflexivity.
Qed.

(** Every exit of the expansion, for a positive tolerance: the Rational
    returned is the convergent itself, in lowest terms, and it meets the
    tolerance, or exceeds the maximal denominator, or is the last one the
    budget allows. *)
Lemma expand_spec (budget : nat) :
  forall (x tol : Q) (qmax : Z) (xn : Q) (h1 k1 h2 k2 : Z) (n : nat)
         (c : myriota_rational) (m : nat),
    (0 < tol)%Q ->
    RationalApproximator.expansion_state x xn h1 k1 h2 k2 ->
    RationalApproximator.expand budget x tol qmax xn h1 k1 h2 k2 n = (c, m) ->
    ((Qabs (x - RationalApproximator.value (p c) (q c)) < tol)%Q
     \/ qmax < q c
     \/ m = (n + 1 + budget)%nat)
    /\ Z.gcd (p c) (q c) = 1 /\ 0 < q c.
Proof.
  induction budget as [|budget IH]; intros x tol qmax xn h1 k1 h2 k2 n c m Htol Inv;
    cbn [RationalApproximator.expand];
    pose proof (expansion_den_pos _ _ _ _ _ _ Inv) as Hk;
    pose proof (expansion_gcd _ _ _ _ _ _ Inv) as Hg;
    rewrite (make_myriota_rational_reduced _ _ Hg Hk);
    destruct (Qlt_le_dec _ tol) as [Hlt|Hge];
    try (intros E; inversion E; subst; cbn [p q]; auto; fail);
    destruct (Z.ltb_spec qmax (Qfloor xn * k1 + k2)) as [Hq|Hq];
    try (intros E; inversion E; subst; cbn [p q]; auto; fail).
  - intros E; inversion E; subst; cbn [p q].
    split; [right; right; lia|auto].
  - destruct (Qeq_bool xn (inject_Z (Qfloor xn))) eqn:Ex.
    + apply Qeq_bool_eq in Ex.
      pose proof (expansion_exact _ _ _ _ _ _ Inv Ex) as E0.
      exfalso. rewrite E0 in Hge. change (Qabs 0) with 0%Q in Hge. lra.
    + apply Qeq_bool_neq in Ex. intros E.
      pose proof (expansion_step _ _ _ _ _ _ Inv Ex) as Inv'.
      destruct (IH _ _ _ _ _ _ _ _ _ _ _ Htol Inv' E) as ([H|[H|H]] & Hgc & Hqc);
        (split; [|auto]); auto.
      right; right; lia.
Qed.



(** * Further properties of the header's code *)

(** ** Slots of the circular buffer *)

Lemma mod_shift_ne (m i d : Z) : 0 < d < m -> (i + d) mod m <> i mod m.
Proof.
  intros Hd E.
  assert (H : ((i + d) - i) mod m = 0).
  { rewrite Zminus_mod, E, Z.sub_diag. apply Z.mod_0_l. lia. }
  replace (i + d - i) with d in H by lia.
  rewrite Z.mod_small in H by lia. lia.
Qed.

Lemma mod_distinct (m i j : Z) : i <> j -> Z.abs (i - j) < m -> i mod m <> j mod m.
Proof.
  intros Hne Hlt E.
  destruct (Z.lt_trichotomy i j) as [H|[H|H]]; [|lia|].
  - apply (mod_shift_ne m i (j - i)); [lia|].
    replace (i + (j - i)) with j by lia. now symmetry.
  - apply (mod_shift_ne m j (i - j)); [lia|].
    replace (j + (i - j)) with i by lia. exact E.
Qed.

Section SlotFacts.
Context {T : Type}.
Implicit Types (b : CircularBuffer.t T) (v init : T) (n : Z).

(** The unchecked read is the lookup of slot [n mod size]. *)
Lemma CircularBuffer_read_slot b n :
  CircularBuffer.wf b ->
  CircularBuffer.operator_call b n
  = CircularBuffer.buf b !! Z.to_nat (n mod CircularBuffer.size b).
Proof.
  intros Hwf. destruct (CircularBuffer_index b n Hwf) as [E Hi].
  unfold CircularBuffer.operator_call. rewrite E. now apply vector_get_Some.
Qed.

Lemma CircularBuffer_size_pos b : CircularBuffer.wf b -> 0 < CircularBuffer.size b.
Proof. intros [(k & Hk & ->) _ _ _]. apply Z.pow_pos_nonneg; lia. Qed.

(** A store at the slot of [n0] is read back at [n0] and leaves the reads of
    every index that is not congruent to [n0]. *)
Lemma CircularBuffer_store_read b b' n0 v n :
  CircularBuffer.wf b -> CircularBuffer.wf b' ->
  CircularBuffer.size b' = CircularBuffer.size b ->
  CircularBuffer.buf b'
  = <[Z.to_nat (n0 mod CircularBuffer.size b) := v]> (CircularBuffer.buf b) ->
  (n mod CircularBuffer.size b = n0 mod CircularBuffer.size b ->
   CircularBuffer.operator_call b' n = Some v)
  /\ (n mod CircularBuffer.size b <> n0 mod CircularBuffer.size b ->
      CircularBuffer.operator_call b' n = CircularBuffer.operator_call b n).
Proof.
  intros Hwf Hwf' Hs Hb.
  destruct (CircularBuffer_index b n Hwf) as [_ Hi].
  destruct (CircularBuffer_index b n0 Hwf) as [_ Hi0].
  rewrite (CircularBuffer_read_slot b' n Hwf'), (CircularBuffer_read_slot b n Hwf).
  rewrite Hs, Hb. split; intros H.
  - rewrite H. apply list_lookup_insert_eq. lia.
  - apply list_lookup_insert_ne. intros E. apply H. lia.
Qed.

Lemma CircularBuffer_push_buf v b b' :
  CircularBuffer.wf b -> CircularBuffer.push v b = Some b' ->
  CircularBuffer.size b' = CircularBuffer.size b
  /\ CircularBuffer.N b' = uint64 (CircularBuffer.N b + 1)
  /\ CircularBuffer.buf b'
     = <[Z.to_nat (CircularBuffer.N b mod CircularBuffer.size b) := v]>
         (CircularBuffer.buf b).
Proof.
  intros Hwf Hp. destruct (CircularBuffer_index b (CircularBuffer.N b) Hwf) as [E _].
  apply CircularBuffer_push_inv in Hp. subst b'. cbn. now rewrite E.
Qed.

Lemma CircularBuffer_set_inv n v b b' :
  CircularBuffer.wf b -> CircularBuffer.set n v b = Some (Returns tt, b') ->
  CircularBuffer.minn b <= n <= CircularBuffer.maxn b
  /\ CircularBuffer.size b' = CircularBuffer.size b
  /\ CircularBuffer.mask b' = CircularBuffer.mask b
  /\ CircularBuffer.N b' = CircularBuffer.N b
  /\ CircularBuffer.buf b'
     = <[Z.to_nat (n mod CircularBuffer.size b) := v]> (CircularBuffer.buf b).
Proof.
  intros Hwf. destruct (CircularBuffer_index b n Hwf) as [E Hi].
  unfold CircularBuffer.set. rewrite Z.geb_leb.
  destruct (Z.leb_spec (CircularBuffer.minn b) n);
    destruct (Z.leb_spec n (CircularBuffer.maxn b)); cbn [andb];
    try (intros Hx; discriminate Hx).
  rewrite vector_set_Some by (rewrite E; exact Hi). cbn [mbind option_bind].
  intros Hx. inversion Hx; subst b'. cbn. rewrite E. repeat split; auto; lia.
Qed.

End SlotFacts.

(** ** The buffer as a window on the stream of pushed values *)

Section StreamFacts.
Context {T : Type}.
Implicit Types (b : CircularBuffer.t T) (v init : T) (vs pre : list T) (i : Z).

Lemma stream_at_app_l init pre vs i :
  i < Z.of_nat (length pre) -> stream_at init (pre ++ vs) i = stream_at init pre i.
Proof.
  intros Hi. unfold stream_at. destruct (Z.ltb_spec i 0); [reflexivity|].
  apply app_nth1. lia.
Qed.

Lemma stream_at_middle init pre v vs :
  stream_at init (pre ++ v :: vs) (Z.of_nat (length pre)) = v.
Proof.
  unfold stream_at. destruct (Z.ltb_spec (Z.of_nat (length pre)) 0); [lia|].
  rewrite Nat2Z.id. apply nth_middle.
Qed.

(** Before any push every index of the window reads the initial value. *)
Lemma CircularBuffer_new_read (s : Z) init i :
  0 <= s < 2 ^ 31 ->
  CircularBuffer.operator_call (CircularBuffer.new s init) i = Some init.
Proof.
  intros Hs. pose proof (CircularBuffer_new_wf s init Hs) as Hwf.
  rewrite (CircularBuffer_read_slot _ i Hwf).
  destruct (CircularBuffer_index _ i Hwf) as [_ Hi].
  cbn [CircularBuffer.new CircularBuffer.buf] in *.
  rewrite length_replicate in Hi. apply lookup_replicate_2. lia.
Qed.

(** One push extends the stream the buffer shows by one value. *)
Lemma CircularBuffer_push_stream init pre v b b' :
  CircularBuffer.wf b ->
  CircularBuffer.N b = Z.of_nat (length pre) ->
  (forall i, Z.of_nat (length pre) - CircularBuffer.size b <= i < Z.of_nat (length pre) ->
             CircularBuffer.operator_call b i = Some (stream_at init pre i)) ->
  CircularBuffer.push v b = Some b' ->
  forall i,
    Z.of_nat (length (pre ++ [v])) - CircularBuffer.size b
      <= i < Z.of_nat (length (pre ++ [v])) ->
    CircularBuffer.operator_call b' i = Some (stream_at init (pre ++ [v]) i).
Proof.
  intros Hwf HN Hinv Hp i Hi. rewrite length_app in Hi. cbn [length] in Hi.
  pose proof (CircularBuffer_push_wf v b b' Hwf Hp) as Hwf'.
  destruct (CircularBuffer_push_buf v b b' Hwf Hp) as (Hs & _ & Hb).
  destruct (CircularBuffer_store_read b b' (CircularBuffer.N b) v i Hwf Hwf' Hs Hb)
    as [Heq Hne].
  destruct (Z.eq_dec i (Z.of_nat (length pre))) as [->|Hd].
  - rewrite Heq by (now rewrite HN). now rewrite stream_at_middle.
  - rewrite Hne.
    + rewrite stream_at_app_l by lia. apply Hinv. lia.
    + rewrite HN. apply mod_distinct; lia.
Qed.

Lemma CircularBuffer_pushes_stream init vs : forall pre b,
  CircularBuffer.wf b ->
  CircularBuffer.N b = Z.of_nat (length pre) ->
  (forall i, Z.of_nat (length pre) - CircularBuffer.size b <= i < Z.of_nat (length pre) ->
             CircularBuffer.operator_call b i = Some (stream_at init pre i)) ->
  Z.of_nat (length pre) + Z.of_nat (length vs) < 2 ^ 63 ->
  exists b',
    CircularBuffer.pushes vs b = Some b'
    /\ CircularBuffer.wf b'
    /\ CircularBuffer.size b' = CircularBuffer.size b
    /\ CircularBuffer.N b' = Z.of_nat (length (pre ++ vs))
    /\ forall i,
         Z.of_nat (length (pre ++ vs)) - CircularBuffer.size b
           <= i < Z.of_nat (length (pre ++ vs)) ->
         CircularBuffer.operator_call b' i = Some (stream_at init (pre ++ vs) i).
Proof.
  induction vs as [|v vs IH]; intros pre b Hwf HN Hinv Hlen.
  - exists b. rewrite app_nil_r. cbn [CircularBuffer.pushes]. auto.
  - destruct (CircularBuffer_push_total v b Hwf) as [b1 Hp].
    pose proof (CircularBuffer_push_wf v b b1 Hwf Hp) as Hwf1.
    destruct (CircularBuffer_push_buf v b b1 Hwf Hp) as (Hs1 & HN1 & _).
    cbn [length] in Hlen.
    rewrite uint64_small in HN1 by (rewrite pow2_64; rewrite pow2_63 in Hlen; lia).
    destruct (IH (pre ++ [v]) b1 Hwf1) as (b' & Hps & Hwf' & Hs' & HN' & Hinv').
    + rewrite HN1, HN, length_app. cbn [length]. lia.
    + rewrite Hs1. now apply CircularBuffer_push_stream.
    + rewrite length_app. cbn [length]. lia.
    + rewrite <- app_assoc in HN', Hinv'. cbn [app] in HN', Hinv'.
      exists b'. cbn [CircularBuffer.pushes]. rewrite Hp. cbn [mbind option_bind].
      rewrite Hs1 in Hs', Hinv'. auto.
Qed.

End StreamFacts.

(** X1. After a run of [N < 2^63] pushes on a freshly constructed buffer
    (requested size [s], [s + 1 <= 2^31]), every index [i] of the window
    [[minn(), maxn()]] reads the [i]-th pushed value, and the initial value
    where [i] is negative: the buffer shows the last [capacity] elements of
    the stream, padded on the left with [init]. *)
Theorem pushes_read_stream (T : Type) (s : Z) (init : T) (vs : list T) (i : Z) :
  0 <= s < 2 ^ 31 ->
  Z.of_nat (length vs) < 2 ^ 63 ->
  exists b,
    CircularBuffer.pushes vs (CircularBuffer.new s init) = Some b
    /\ (CircularBuffer.minn b <= i <= CircularBuffer.maxn b ->
        CircularBuffer.operator_call b i = Some (stream_at init vs i)).
Proof.
  intros Hs Hlen. pose proof (CircularBuffer_new_wf s init Hs) as Hwf.
  destruct (CircularBuffer_pushes_stream init vs [] (CircularBuffer.new s init) Hwf)
    as (b & Hp & Hwf' & Hsz & HN & Hinv).
  - reflexivity.
  - intros j Hj. cbn [length] in Hj. rewrite CircularBuffer_new_read by exact Hs.
    unfold stream_at. destruct (Z.ltb_spec j 0); [reflexivity|lia].
  - cbn [length]. lia.
  - cbn [app] in HN, Hinv. exists b. split; [exact Hp|].
    destruct (CircularBuffer_window b Hwf') as [Hmax Hmin]; [lia|].
    rewrite Hmax, Hmin, HN, Hsz. intros Hi. apply Hinv. lia.
Qed.

Lemma pushes_read_stream_witness :
  exists b,
    CircularBuffer.pushes [10; 11; 12; 13; 14] (CircularBuffer.new 3 0) = Some b
    /\ (CircularBuffer.minn b <= 2 <= CircularBuffer.maxn b ->
        CircularBuffer.operator_call b 2 = Some (stream_at 0 [10; 11; 12; 13; 14] 2)).
Proof.
  apply (pushes_read_stream Z 3 0 [10; 11; 12; 13; 14] 2);
    [split; [lia|reflexivity]|reflexivity].
Defined.

Lemma CircularBuffer_pushes_reachable (T : Type) (s : Z) (init : T) (vs : list T) :
  forall b b' : CircularBuffer.t T,
    CircularBuffer.reachable s init b ->
    CircularBuffer.pushes vs b = Some b' ->
    CircularBuffer.reachable s init b'.
Proof.
  induction vs as [|v vs IH]; intros b b' Hr Hp; cbn [CircularBuffer.pushes] in Hp.
  - inversion Hp; subst. exact Hr.
  - destruct (CircularBuffer.push v b) as [b1|] eqn:E; cbn in Hp; [|discriminate].
    apply (IH b1 b'); [|exact Hp].
    eapply CircularBuffer.reach_push; eauto.
Qed.

(** X2. A push writes one slot only: in every state of a constructed
    buffer, every index that is not congruent to the push count modulo the
    capacity reads after the push what it read before, and the capacity is
    kept; so, below [2^63 - 1] pushes, every index of the new window but the
    newest keeps its element, and only the oldest one is lost. *)
Theorem push_keeps_other_slots (T : Type) (s : Z) (init : T)
    (b b' : CircularBuffer.t T) (v : T) :
  0 <= s < 2 ^ 31 ->
  CircularBuffer.reachable s init b ->
  CircularBuffer.push v b = Some b' ->
  CircularBuffer.size b' = CircularBuffer.size b
  /\ (forall n,
        n mod CircularBuffer.size b
          <> CircularBuffer.pushed b mod CircularBuffer.size b ->
        CircularBuffer.operator_call b' n = CircularBuffer.operator_call b n)
  /\ (CircularBuffer.pushed b < 2 ^ 63 - 1 ->
      forall n,
        CircularBuffer.minn b' <= n < CircularBuffer.maxn b' ->
        CircularBuffer.operator_call b' n = CircularBuffer.operator_call b n).
Proof.
  intros Hs Hr Hp. pose proof (CircularBuffer_reachable_wf s init b Hs Hr) as Hwf.
  pose proof (CircularBuffer_push_wf v b b' Hwf Hp) as Hwf'.
  destruct (CircularBuffer_push_buf v b b' Hwf Hp) as (Hsz & HN & Hb).
  assert (Hother : forall n,
            n mod CircularBuffer.size b
              <> CircularBuffer.N b mod CircularBuffer.size b ->
            CircularBuffer.operator_call b' n = CircularBuffer.operator_call b n).
  { intros n. apply (CircularBuffer_store_read b b' (CircularBuffer.N b) v n); auto. }
  split; [exact Hsz|]. split; [exact Hother|].
  unfold CircularBuffer.pushed. intros Hlt n Hn.
  pose proof (wf_N_range := CircularBuffer.wf_N b Hwf).
  rewrite uint64_small in HN by (rewrite pow2_64; rewrite pow2_63 in Hlt; lia).
  destruct (CircularBuffer_window b' Hwf') as [Hmax Hmin]; [lia|].
  rewrite Hmax, Hmin, HN, Hsz in Hn.
  apply Hother. apply mod_distinct; lia.
Qed.

Lemma push_keeps_other_slots_witness :
  exists b b',
    CircularBuffer.pushes [10; 11; 12; 13] (CircularBuffer.new 3 0) = Some b
    /\ CircularBuffer.push 14 b = Some b'
    /\ CircularBuffer.operator_call b' 2 = CircularBuffer.operator_call b 2.
Proof.
  eexists. eexists. split; [vm_compute; reflexivity|].
  split; [vm_compute; reflexivity|].
  eapply (push_keeps_other_slots Z 3 0 _ _ 14).
  - split; [lia|reflexivity].
  - apply (CircularBuffer_pushes_reachable Z 3 0 [10; 11; 12; 13]
             (CircularBuffer.new 3 0)); [apply CircularBuffer.reach_new|].
    vm_compute. reflexivity.
  - vm_compute. reflexivity.
  - reflexivity.
  - vm_compute. split; [discriminate|reflexivity].
Defined.

(** X3. An accepted checked write changes one slot only: it keeps the
    capacity, the push count and both bounds of the window, and every index
    that is not congruent to [n] modulo the capacity reads what it read
    before; so, below [2^63] pushes, every other index of the window keeps
    its element. *)
Theorem set_keeps_other_slots (T : Type) (s : Z) (init : T)
    (b b' : CircularBuffer.t T) (n : Z) (v : T) :
  0 <= s < 2 ^ 31 ->
  CircularBuffer.reachable s init b ->
  CircularBuffer.set n v b = Some (Returns tt, b') ->
  CircularBuffer.size b' = CircularBuffer.size b
  /\ CircularBuffer.pushed b' = CircularBuffer.pushed b
  /\ CircularBuffer.minn b' = CircularBuffer.minn b
  /\ CircularBuffer.maxn b' = CircularBuffer.maxn b
  /\ (forall m,
        m mod CircularBuffer.size b <> n mod CircularBuffer.size b ->
        CircularBuffer.operator_call b' m = CircularBuffer.operator_call b m)
  /\ (CircularBuffer.pushed b < 2 ^ 63 ->
      forall m,
        CircularBuffer.minn b <= m <= CircularBuffer.maxn b -> m <> n ->
        CircularBuffer.operator_call b' m = CircularBuffer.operator_call b m).
Proof.
  intros Hs Hr Hset. pose proof (CircularBuffer_reachable_wf s init b Hs Hr) as Hwf.
  pose proof (CircularBuffer_set_wf n v b _ b' Hwf Hset) as Hwf'.
  destruct (CircularBuffer_set_inv n v b b' Hwf Hset) as (Hn & Hsz & _ & HN & Hb).
  assert (Hother : forall m,
            m mod CircularBuffer.size b <> n mod CircularBuffer.size b ->
            CircularBuffer.operator_call b' m = CircularBuffer.operator_call b m).
  { intros m. apply (CircularBuffer_store_read b b' n v m); auto. }
  unfold CircularBuffer.pushed, CircularBuffer.minn, CircularBuffer.maxn.
  rewrite HN, Hsz. repeat split; auto.
  intros Hlt m Hm Hne. apply Hother.
  destruct (CircularBuffer_window b Hwf Hlt) as [Hmax Hmin].
  fold (CircularBuffer.minn b) in Hm. fold (CircularBuffer.maxn b) in Hm.
  rewrite Hmax, Hmin in Hm, Hn. apply mod_distinct; lia.
Qed.

Lemma set_keeps_other_slots_witness :
  exists b',
    CircularBuffer.set (-1) 9 (CircularBuffer.new 3 0) = Some (Returns tt, b')
    /\ CircularBuffer.minn b' = CircularBuffer.minn (CircularBuffer.new 3 0)
    /\ CircularBuffer.operator_call b' (-2) = Some 0.
Proof.
  eexists. split; [vm_compute; reflexivity|]. split; [|reflexivity].
  eapply (set_keeps_other_slots Z 3 0 (CircularBuffer.new 3 0) _ (-1) 9).
  - split; [lia|reflexivity].
  - apply CircularBuffer.reach_new.
  - vm_compute. reflexivity.
Defined.

(** X4. The unchecked read is periodic in the capacity: in every state of
    a constructed buffer, index [n + k * capacity] reads the same slot as
    index [n], for all integers [n] and [k]. *)
Theorem operator_call_periodic (T : Type) (s : Z) (init : T)
    (b : CircularBuffer.t T) (n k : Z) :
  0 <= s < 2 ^ 31 ->
  CircularBuffer.reachable s init b ->
  CircularBuffer.operator_call b (n + k * CircularBuffer.size b)
  = CircularBuffer.operator_call b n.
Proof.
  intros Hs Hr. pose proof (CircularBuffer_reachable_wf s init b Hs Hr) as Hwf.
  rewrite !CircularBuffer_read_slot by exact Hwf.
  rewrite Z.mod_add; [reflexivity|].
  pose proof (CircularBuffer_size_pos b Hwf). lia.
Qed.

Lemma operator_call_periodic_witness :
  CircularBuffer.operator_call (CircularBuffer.new 3 0)
    (1 + (-2) * CircularBuffer.size (CircularBuffer.new 3 0))
  = CircularBuffer.operator_call (CircularBuffer.new 3 0) 1.
Proof.
  apply (operator_call_periodic Z 3 0 (CircularBuffer.new 3 0) 1 (-2));
    [split; [lia|reflexivity]|apply CircularBuffer.reach_new].
Defined.

(** ** Integer helpers *)

Lemma myriota_mod_eq (w x y : Z) :
  in_signed w x -> in_signed w y -> 0 < y ->
  myriota_mod w x y = Some (x mod y).
Proof.
  unfold in_signed. intros Hx Hy Hpos. unfold myriota_mod.
  destruct (Z.eqb_spec y 0) as [|_]; [lia|].
  pose proof (Z.quot_rem' x y) as E.
  pose proof (Z.rem_bound_abs x y ltac:(lia)) as Hr.
  assert (Hsign : (0 <= x -> 0 <= Z.rem x y) /\ (x <= 0 -> Z.rem x y <= 0)).
  { split; intros H; [apply Z.rem_nonneg|apply Z.rem_nonpos]; lia. }
  assert (Hq : in_signed w (Z.quot x y)).
  { unfold in_signed. destruct (Z.le_gt_cases 0 x); nia. }
  assert (Eq : checked_signed w (Z.quot x y) = Some (Z.quot x y))
    by (apply checked_signed_Some; auto).
  rewrite Eq. cbn [mbind option_bind].
  destruct (Z.ltb_spec (Z.rem x y) 0) as [Hneg|Hnn].
  - assert (Hm : Z.rem x y + y = x mod y).
    { apply (Z.mod_unique x y (Z.quot x y - 1)); lia. }
    rewrite Hm. apply checked_signed_Some. split; [reflexivity|].
    unfold in_signed. rewrite <- Hm. lia.
  - f_equal. apply (Z.mod_unique x y (Z.quot x y)); lia.
Qed.

(** X5. For a positive modulus [y], [mod(x, y)] at a signed integer type is
    defined for all [x] and [y] of the type and is the representative of
    [x] in [{0, ..., y - 1}]: it differs from [x] by a multiple of [y], also
    for negative [x], where [%] alone gives a negative remainder. *)
Theorem myriota_mod_coset (w x y : Z) :
  in_signed w x -> in_signed w y -> 0 < y ->
  exists r,
    myriota_mod w x y = Some r
    /\ 0 <= r < y
    /\ (exists k, x = k * y + r)
    /\ (Z.rem x y < 0 -> r = Z.rem x y + y).
Proof.
  intros Hx Hy Hpos. exists (x mod y).
  split; [now apply myriota_mod_eq|].
  split; [apply Z.mod_pos_bound; lia|].
  split.
  - exists (x / y). pose proof (Z.div_mod x y ltac:(lia)). lia.
  - intros Hneg. pose proof (Z.quot_rem' x y) as E.
    pose proof (Z.rem_bound_abs x y ltac:(lia)) as Hr.
    symmetry. apply (Z.mod_unique x y (Z.quot x y - 1)); lia.
Qed.

Lemma myriota_mod_coset_witness :
  exists r, myriota_mod 64 (-7) 4 = Some r /\ 0 <= r < 4
            /\ (exists k, -7 = k * 4 + r)
            /\ (Z.rem (-7) 4 < 0 -> r = Z.rem (-7) 4 + 4).
Proof.
  apply (myriota_mod_coset 64 (-7) 4); [split; [discriminate|reflexivity]
                                       |split; [discriminate|reflexivity]|reflexivity].
Defined.

(** X6. The masked index of the circular buffer is the header's own [mod]:
    in every state of a constructed buffer and for every [int64_t] index
    [n], [n & mask] equals [mod(n, size)]. *)
Theorem mask_index_is_mod (T : Type) (s : Z) (init : T)
    (b : CircularBuffer.t T) (n : Z) :
  0 <= s < 2 ^ 31 ->
  CircularBuffer.reachable s init b ->
  in_signed 64 n ->
  myriota_mod 64 n (CircularBuffer.size b) = Some (Z.land n (CircularBuffer.mask b)).
Proof.
  intros Hs Hr Hn. pose proof (CircularBuffer_reachable_wf s init b Hs Hr) as Hwf.
  destruct (CircularBuffer_index b n Hwf) as [E _]. rewrite E.
  pose proof (CircularBuffer_size_pos b Hwf) as Hpos.
  apply myriota_mod_eq; auto.
  destruct Hwf as [(k & Hk & Hsz) _ _ _]. unfold in_signed. rewrite Hsz.
  change (64 - 1) with 63. split.
  - pose proof (Z.pow_pos_nonneg 2 k). pose proof (Z.pow_pos_nonneg 2 63). lia.
  - apply Z.pow_lt_mono_r; lia.
Qed.

Lemma mask_index_is_mod_witness :
  myriota_mod 64 (-5) (CircularBuffer.size (CircularBuffer.new 3 0))
  = Some (Z.land (-5) (CircularBuffer.mask (CircularBuffer.new 3 0))).
Proof.
  apply (mask_index_is_mod Z 3 0 (CircularBuffer.new 3 0) (-5));
    [split; [lia|reflexivity]|apply CircularBuffer.reach_new
    |split; [discriminate|reflexivity]].
Defined.

(** X7. For operands of an unsigned type of [w] bits and a divisor that is
    not zero, [a / b + (a % b != 0)] is the ceiling of [a / b]: the least
    [c] with [a <= c * b]; the sum never wraps, since [c <= a]. *)
Theorem unsigned_div_ceil_is_ceiling (w a b : Z) :
  0 <= a < 2 ^ w -> 0 < b < 2 ^ w ->
  exists c,
    unsigned_div_ceil w a b = Some c
    /\ a <= c * b
    /\ (forall c', a <= c' * b -> c <= c')
    /\ 0 <= c <= a.
Proof.
  intros Ha Hb. unfold unsigned_div_ceil.
  destruct (Z.eqb_spec b 0) as [|_]; [lia|].
  pose proof (Z.div_mod a b ltac:(lia)) as E.
  pose proof (Z.mod_pos_bound a b ltac:(lia)) as Hm.
  assert (Hd : 0 <= a / b) by (apply Z.div_pos; lia).
  set (c := a / b + (if negb (a mod b =? 0) then 1 else 0)).
  assert (Hc : a <= c * b /\ (c - 1) * b < a /\ 0 <= c <= a).
  { unfold c. destruct (Z.eqb_spec (a mod b) 0); cbn [negb]; nia. }
  exists c. split; [|split; [|split]]; try tauto.
  - f_equal. apply Z.mod_small. lia.
  - intros c' Hc'. nia.
Qed.

Lemma unsigned_div_ceil_is_ceiling_witness :
  exists c,
    myriota_int_div_ceil 7 2 = Some c
    /\ 7 <= c * 2
    /\ (forall c', 7 <= c' * 2 -> c <= c')
    /\ 0 <= c <= 7.
Proof.
  apply (unsigned_div_ceil_is_ceiling 32 7 2); split; try lia; reflexivity.
Defined.

Lemma myriota_clip_16_eq (x : Z) :
  myriota_clip_16 x = Z.max (-32768) (Z.min x 32767).
Proof.
  unfold myriota_clip_16.
  change (Z.shiftl 1 15 - 1) with 32767. change (- Z.shiftl 1 15) with (-32768).
  rewrite Z.gtb_ltb.
  destruct (Z.ltb_spec 32767 x) as [Hhi|Hhi].
  - change (int16 32767) with 32767. lia.
  - destruct (Z.ltb_spec x (-32768)) as [Hlo|Hlo].
    + change (int16 (-32768)) with (-32768). lia.
    + rewrite int16_small by (change (2 ^ 15) with 32768; lia). lia.
Qed.

(** X8. The 16-bit clip is monotone and idempotent: a larger input never
    gives a smaller output, and clipping a clipped value changes nothing. *)
Theorem myriota_clip_16_monotone_idempotent (x y : Z) :
  (x <= y -> myriota_clip_16 x <= myriota_clip_16 y)
  /\ myriota_clip_16 (myriota_clip_16 x) = myriota_clip_16 x.
Proof. rewrite !myriota_clip_16_eq. lia. Qed.

(** X9. With [myriota_greater_power_of_two] as its header comment
    describes it, [myriota_is_power_of_two x] answers 1 exactly when [x] is
    a power of two, and 0 otherwise, for every [0 < x <= 2^31]. *)
Theorem myriota_is_power_of_two_correct (x : Z) :
  0 < x <= 2 ^ 31 ->
  (myriota_is_power_of_two x = 1 <-> is_power_of_two x)
  /\ (myriota_is_power_of_two x = 0 <-> ~ is_power_of_two x).
Proof.
  intros Hx. destruct (greater_power_of_two_eq x) as [E Hl]; [lia|].
  unfold myriota_is_power_of_two. rewrite E.
  assert (Hiff : 2 ^ Z.log2_up x = x <-> is_power_of_two x).
  { split.
    - intros H. exists (Z.log2_up x). split; [lia|now symmetry].
    - intros (k & Hk & ->). now rewrite Z.log2_up_pow2. }
  destruct (Z.eqb_spec (2 ^ Z.log2_up x) x) as [He|Hne].
  - split; split; try tauto; try discriminate.
  - split; split; try tauto; try discriminate.
Qed.

Lemma myriota_is_power_of_two_correct_witness :
  (myriota_is_power_of_two 48 = 1 <-> is_power_of_two 48)
  /\ (myriota_is_power_of_two 48 = 0 <-> ~ is_power_of_two 48).
Proof.
  apply (myriota_is_power_of_two_correct 48). split; [lia|discriminate].
Defined.

(** ** Sign and centred fractional part *)

(** X10. [myriota_signum x] is 1, 0 or -1 according to the sign of [x]; it
    is 0 only at 0, and [x = signum(x) * |x|]. *)
Theorem myriota_signum_sign (x : Q) :
  ((0 < x)%Q -> myriota_signum x = 1%Q)
  /\ ((x < 0)%Q -> myriota_signum x = (-1)%Q)
  /\ ((x == 0)%Q <-> myriota_signum x = 0%Q)
  /\ (x == myriota_signum x * Qabs x)%Q.
Proof.
  unfold myriota_signum, Double.of_int.
  destruct (Qlt_le_dec 0 x) as [Hp|Hp], (Qlt_le_dec x 0) as [Hn|Hn];
    try change (inject_Z (1 - 0)) with 1%Q;
    try change (inject_Z (0 - 1)) with (-1)%Q;
    try change (inject_Z (0 - 0)) with 0%Q.
  - exfalso. lra.
  - split; [reflexivity|]. split; [intros; exfalso; lra|]. split.
    + split; [intros E; exfalso; lra|discriminate].
    + rewrite Qabs_pos by lra. ring.
  - split; [intros; exfalso; lra|]. split; [reflexivity|]. split.
    + split; [intros E; exfalso; lra|discriminate].
    + rewrite Qabs_neg by lra. ring.
  - assert (E : (x == 0)%Q) by lra.
    split; [intros; exfalso; lra|]. split; [intros; exfalso; lra|]. split.
    + split; [reflexivity|intros _; exact E].
    + rewrite E. reflexivity.
Qed.

Lemma round_cases (x : Q) :
  exists k : Z,
    round x = inject_Z k
    /\ ((0 <= x)%Q -> (inject_Z k - (1 # 2) <= x < inject_Z k + (1 # 2))%Q)
    /\ ((x < 0)%Q -> (inject_Z k - (1 # 2) < x <= inject_Z k + (1 # 2))%Q).
Proof.
  unfold round. destruct (Qlt_le_dec x 0) as [Hn|Hp].
  - exists (Qceiling (x - (1 # 2))). split; [reflexivity|].
    split; [intros; exfalso; lra|]. intros _.
    pose proof (Qle_ceiling (x - (1 # 2))) as H1.
    pose proof (Qceiling_lt (x - (1 # 2))) as H2.
    unfold Z.sub in H2. rewrite inject_Z_plus in H2.
    change (inject_Z (Z.opp 1)) with (-1)%Q in H2. lra.
  - exists (Qfloor (x + (1 # 2))). split; [reflexivity|].
    split; [|intros; exfalso; lra]. intros _.
    pose proof (Qfloor_le (x + (1 # 2))) as H1.
    pose proof (Qlt_floor (x + (1 # 2))) as H2.
    rewrite inject_Z_plus in H2. change (inject_Z 1) with 1%Q in H2. lra.
Qed.

(** X11. [myriota_fracpart x] is [x] minus an integer and lies in
    [[-1/2, 1/2]]: in [[-1/2, 1/2)] for [x >= 0] and in [(-1/2, 1/2]] for
    [x < 0], because [round] takes halfway cases away from zero.  The value
    [+1/2] is reached at every negative half-integer [k - 1/2], [k <= 0], so
    the result set is not the half-open interval of the comment above the
    function. *)
Theorem myriota_fracpart_range (x : Q) :
  (exists k : Z, (x - myriota_fracpart x == inject_Z k)%Q)
  /\ ((0 <= x)%Q -> (- (1 # 2) <= myriota_fracpart x < 1 # 2)%Q)
  /\ ((x < 0)%Q -> (- (1 # 2) < myriota_fracpart x <= 1 # 2)%Q)
  /\ (forall k : Z, k <= 0 ->
        (myriota_fracpart (inject_Z k - (1 # 2)) == 1 # 2)%Q).
Proof.
  unfold myriota_fracpart. split; [|split; [|split]].
  - destruct (round_cases x) as (k & E & _). exists k. rewrite E. ring.
  - intros Hx. destruct (round_cases x) as (k & E & H & _). rewrite E.
    specialize (H Hx). lra.
  - intros Hx. destruct (round_cases x) as (k & E & _ & H). rewrite E.
    specialize (H Hx). lra.
  - intros k Hk.
    assert (Hneg : (inject_Z k - (1 # 2) < 0)%Q).
    { assert (inject_Z k <= 0)%Q by (change 0%Q with (inject_Z 0); now rewrite <- Zle_Qle).
      lra. }
    unfold round. destruct (Qlt_le_dec (inject_Z k - (1 # 2)) 0) as [_|Hp]; [|lra].
    assert (E : (inject_Z k - (1 # 2) - (1 # 2) == inject_Z (k - 1))%Q).
    { unfold Z.sub. rewrite inject_Z_plus. change (inject_Z (Z.opp 1)) with (-1)%Q. ring. }
    rewrite E, Qceiling_Z. unfold Z.sub. rewrite inject_Z_plus.
    change (inject_Z (Z.opp 1)) with (-1)%Q. ring.
Qed.

(** ** More on the geometry and the window of [Resample] *)

Section ResampleMoreFacts.
Context {T : Type}.
Implicit Types (s : Resample.t T) (xs : list T).

(** A run of pushes on the resampler is the same run on its history
    buffer. *)
Lemma Resample_pushes_buffer xs : forall s,
  Resample.pushes xs s
  = a' ← CircularBuffer.pushes xs (Resample.a s); Some (Resample.with_a s a').
Proof.
  induction xs as [|x xs IH]; intros s.
  - cbn. now destruct s.
  - cbn [Resample.pushes CircularBuffer.pushes]. unfold Resample.push.
    destruct (CircularBuffer.push x (Resample.a s)) as [a1|]; cbn [mbind option_bind];
      [|reflexivity].
    rewrite IH. reflexivity.
Qed.

Lemma min_max_product (g : Q) : (Qmin 1 g * Qmax 1 g == g)%Q.
Proof.
  destruct (Q.min_spec 1 g) as [[H ->]|[H ->]].
  - rewrite Q.max_r by lra. ring.
  - rewrite Q.max_l by lra. ring.
Qed.

Lemma min_max_bounds (g : Q) :
  (Qmin 1 g <= 1 <= Qmax 1 g)%Q /\ (Qmin 1 g <= g <= Qmax 1 g)%Q.
Proof.
  pose proof (Q.le_min_l 1 g). pose proof (Q.le_min_r 1 g).
  pose proof (Q.le_max_l 1 g). pose proof (Q.le_max_r 1 g). auto.
Qed.

End ResampleMoreFacts.





Lemma CircularBuffer_new_size_ge (T : Type) (n : Z) (zero : T) :
  0 <= n < 2 ^ 31 -> n + 1 <= CircularBuffer.size (CircularBuffer.new n zero).
Proof.
  intros Hn. destruct (CircularBuffer_new_size n zero Hn) as [E _]. rewrite E.
  apply Z.log2_up_le_pow2; lia.
Qed.



(** ** The window across pushes and repeated writes *)

Section WindowMoveFacts.
Context {T : Type}.
Implicit Types (b : CircularBuffer.t T) (v w : T) (n : Z).

(** [set] on a well-formed buffer, branch by branch. *)
Lemma CircularBuffer_set_cases n v b :
  CircularBuffer.wf b ->
  (CircularBuffer.minn b <= n <= CircularBuffer.maxn b ->
   CircularBuffer.set n v b
   = Some (Returns tt,
           {| CircularBuffer.size := CircularBuffer.size b;
              CircularBuffer.mask := CircularBuffer.mask b;
              CircularBuffer.buf :=
                <[Z.to_nat (n mod CircularBuffer.size b) := v]> (CircularBuffer.buf b);
              CircularBuffer.N := CircularBuffer.N b |}))
  /\ (~ (CircularBuffer.minn b <= n <= CircularBuffer.maxn b) ->
      CircularBuffer.set n v b
      = Some (Throws (out_of_range (CircularBuffer.set_what n b)), b)).
Proof.
  intros Hwf. destruct (CircularBuffer_index b n Hwf) as [E Hi].
  unfold CircularBuffer.set. rewrite Z.geb_leb.
  rewrite vector_set_Some by (rewrite E; exact Hi). rewrite E.
  destruct (Z.leb_spec (CircularBuffer.minn b) n);
    destruct (Z.leb_spec n (CircularBuffer.maxn b)); cbn [andb mbind option_bind];
    split; intros H'; try reflexivity; lia.
Qed.

End WindowMoveFacts.

(** X15. Below [2^63 - 1] pushes, a push slides the window by one: [minn()]
    and [maxn()] both grow by exactly one, so a checked write at the old
    lower bound is now refused with [out_of_range], while one at the new
    upper bound is accepted. *)
Theorem push_slides_window (T : Type) (s : Z) (init : T)
    (b b' : CircularBuffer.t T) (v w : T) :
  0 <= s < 2 ^ 31 ->
  CircularBuffer.reachable s init b ->
  CircularBuffer.pushed b < 2 ^ 63 - 1 ->
  CircularBuffer.push v b = Some b' ->
  CircularBuffer.minn b' = CircularBuffer.minn b + 1
  /\ CircularBuffer.maxn b' = CircularBuffer.maxn b + 1
  /\ (exists what,
        CircularBuffer.set (CircularBuffer.minn b) w b'
        = Some (Throws (out_of_range what), b'))
  /\ (exists b'',
        CircularBuffer.set (CircularBuffer.maxn b') w b' = Some (Returns tt, b'')).
Proof.
  intros Hs Hr Hlt Hp. unfold CircularBuffer.pushed in Hlt.
  pose proof (CircularBuffer_reachable_wf s init b Hs Hr) as Hwf.
  pose proof (CircularBuffer_push_wf v b b' Hwf Hp) as Hwf'.
  destruct (CircularBuffer_push_buf v b b' Hwf Hp) as (Hsz & HN & _).
  pose proof (CircularBuffer.wf_N b Hwf) as HNr.
  rewrite uint64_small in HN by (rewrite pow2_64; rewrite pow2_63 in Hlt; lia).
  destruct (CircularBuffer_window b Hwf) as [Hmax Hmin]; [lia|].
  destruct (CircularBuffer_window b' Hwf') as [Hmax' Hmin']; [lia|].
  pose proof (CircularBuffer_size_pos b Hwf) as Hpos.
  split; [lia|]. split; [lia|]. split.
  - eexists. apply (CircularBuffer_set_cases (CircularBuffer.minn b) w b' Hwf'). lia.
  - eexists. apply (CircularBuffer_set_cases (CircularBuffer.maxn b') w b' Hwf'). lia.
Qed.

Lemma push_slides_window_witness :
  exists b',
    CircularBuffer.push 7 (CircularBuffer.new 3 0) = Some b'
    /\ CircularBuffer.minn b' = CircularBuffer.minn (CircularBuffer.new 3 0) + 1.
Proof.
  eexists. split; [vm_compute; reflexivity|].
  eapply (push_slides_window Z 3 0 (CircularBuffer.new 3 0) _ 7 9).
  - split; [lia|reflexivity].
  - apply CircularBuffer.reach_new.
  - reflexivity.
  - vm_compute. reflexivity.
Defined.

(** X16. Of two accepted checked writes at the same index the last one
    wins: the buffer after [set(n, v); set(n, w)] is the buffer after
    [set(n, w)] alone; and writing the value that index already reads
    leaves the buffer exactly as it was. *)
Theorem set_last_write_wins (T : Type) (s : Z) (init : T)
    (b b1 : CircularBuffer.t T) (n : Z) (v w : T) :
  0 <= s < 2 ^ 31 ->
  CircularBuffer.reachable s init b ->
  CircularBuffer.set n v b = Some (Returns tt, b1) ->
  CircularBuffer.set n w b1 = CircularBuffer.set n w b
  /\ (CircularBuffer.operator_call b n = Some v -> b1 = b).
Proof.
  intros Hs Hr Hset. pose proof (CircularBuffer_reachable_wf s init b Hs Hr) as Hwf.
  pose proof (CircularBuffer_set_wf n v b _ b1 Hwf Hset) as Hwf1.
  destruct (CircularBuffer_set_inv n v b b1 Hwf Hset) as (Hn & Hsz & Hm & HN & Hb).
  split.
  - destruct (CircularBuffer_set_cases n w b Hwf) as [E _].
    destruct (CircularBuffer_set_cases n w b1 Hwf1) as [E1 _].
    rewrite E by exact Hn. rewrite E1.
    + rewrite Hsz, Hm, HN, Hb, list_insert_insert_eq. reflexivity.
    + unfold CircularBuffer.minn, CircularBuffer.maxn in *. now rewrite HN, Hsz.
  - intros Hread. rewrite (CircularBuffer_read_slot b n Hwf) in Hread.
    rewrite (list_insert_id _ _ _ Hread) in Hb.
    destruct b, b1; cbn in *. congruence.
Qed.

Lemma set_last_write_wins_witness :
  exists b1,
    CircularBuffer.set (-1) 5 (CircularBuffer.new 3 0) = Some (Returns tt, b1)
    /\ CircularBuffer.set (-1) 6 b1 = CircularBuffer.set (-1) 6 (CircularBuffer.new 3 0).
Proof.
  eexists. split; [vm_compute; reflexivity|].
  eapply (set_last_write_wins Z 3 0 (CircularBuffer.new 3 0) _ (-1) 5 6).
  - split; [lia|reflexivity].
  - apply CircularBuffer.reach_new.
  - vm_compute. reflexivity.
Defined.

(** X17. The capacity of a constructed buffer exceeds the requested size
    [s] and is at most twice it (and is 1 for [s = 0]), for
    [s + 1 <= 2^31]; it is never zero. *)
Theorem capacity_bounds (T : Type) (s : Z) (init : T) :
  0 <= s < 2 ^ 31 ->
  s < CircularBuffer.size (CircularBuffer.new s init)
  /\ CircularBuffer.size (CircularBuffer.new s init) <= Z.max 1 (2 * s).
Proof.
  intros Hs. destruct (CircularBuffer_new_size s init Hs) as [E Hk].
  pose proof (CircularBuffer_new_size_ge T s init Hs) as Hge.
  split; [lia|]. rewrite E.
  destruct (Z.eq_dec s 0) as [->|Hne]; [reflexivity|].
  pose proof (Z.log2_up_spec (s + 1) ltac:(lia)) as [Hlo _].
  replace (Z.log2_up (s + 1)) with (Z.succ (Z.pred (Z.log2_up (s + 1)))) by lia.
  rewrite Z.pow_succ_r by (pose proof (Z.log2_up_pos (s + 1)); lia). lia.
Qed.

Lemma capacity_bounds_witness :
  61 < CircularBuffer.size (CircularBuffer.new 61 0)
  /\ CircularBuffer.size (CircularBuffer.new 61 0) <= Z.max 1 (2 * 61).
Proof.
  apply (capacity_bounds Z 61 0). split; [lia|reflexivity].
Defined.
